(** * DeepClaude: the Claude client's token pool and stream decoder

    A shallow embedding of [app/clients/claude_client.py]: the class
    [TokenManager] (an ordered pool of credentials with a cursor) and the
    class [ClaudeClient] (construction, the quota-retry loop of
    [_make_request], [_update_headers], and the server-sent-event decoding
    loop of [stream_chat]). *)

From stdpp Require Import base option list strings gmap relations.
From Stdlib Require Import Lia ZArith Ascii.
From Stdlib Require Floats.SpecFloat.

(** ** Python exceptions and results *)

Inductive exn : Type :=
| IndexError
| KeyError
| TypeError
| AttributeError
| ValueError
| UnicodeDecodeError
| JSONDecodeError
| RecursionError.

(** A call either returns a value or raises. *)
Inductive result (A : Type) : Type :=
| Return (a : A)
| Raise (e : exn).
Arguments Return {A} a.
Arguments Raise {A} e.

(** ** class TokenManager *)

Module TokenManager.

(** One element of [self.tokens]: a dict with the key ["token"] and,
    possibly, the key ["exhausted"] ([None] when the key is absent). *)
Record token_info : Type := TokenInfo {
  token : string;
  exhausted : option bool
}.

(** [token_info.get("exhausted", False)] *)
Definition is_exhausted (e : token_info) : bool := default false (exhausted e).

(** [token_info["exhausted"] = b] *)
Definition set_exhausted (b : bool) (e : token_info) : token_info :=
  {| token := token e; exhausted := Some b |}.

(** The mutable fields of a [TokenManager] object. *)
Record t : Type := Mk {
  tokens : list token_info;
  current_token_index : nat
}.

Definition set_index (i : nat) (tm : t) : t :=
  {| tokens := tokens tm; current_token_index := i |}.

(** [load_tokens]: [file] is what [json.load] read from the token file,
    [None] when opening or parsing it raised. The cursor is not touched. *)
Definition load_tokens (file : option (list token_info)) (tm : t) : t :=
  {| tokens := default [] file; current_token_index := current_token_index tm |}.

(** [__init__]: empty list, cursor 0, then [load_tokens]. *)
Definition init (file : option (list token_info)) : t :=
  load_tokens file {| tokens := []; current_token_index := 0 |}.

(** What a call of [get_next_token] leaves behind: the returned value (or
    the exception), the manager afterwards, and the number of entries it
    read with [self.tokens[self.current_token_index]]. *)
Record next_result : Type := NextResult {
  returned : result (option string);
  after : t;
  probes : nat
}.

(** The [while True] loop of [get_next_token]; one unit of [fuel] per
    iteration, [None] when the fuel runs out. *)
Fixpoint scan (fuel : nat) (start_index : nat) (probed : nat) (tm : t)
  : option next_result :=
  match fuel with
  | O => None
  | S fuel' =>
      match tokens tm !! current_token_index tm with
      | None => Some (NextResult (Raise IndexError) tm probed)
      | Some info =>
          if negb (is_exhausted info) then
            Some (NextResult (Return (Some (token info))) tm (S probed))
          else
            let tm' :=
              set_index ((current_token_index tm + 1) mod length (tokens tm)) tm in
            if decide (current_token_index tm' = start_index) then
              Some (NextResult (Return None) tm' (S probed))
            else scan fuel' start_index (S probed) tm'
      end
  end.

(** [get_next_token] *)
Definition get_next_token (fuel : nat) (tm : t) : option next_result :=
  match tokens tm with
  | [] => Some (NextResult (Return None) tm 0)
  | _ :: _ => scan fuel (current_token_index tm) 0 tm
  end.

(** The [for i, token_info in enumerate(self.tokens)] loop of
    [mark_token_exhausted], at index [i] with [todo] still to visit. *)
Fixpoint mark_loop (tok : string) (i : nat) (todo : list token_info) (tm : t) : t :=
  match todo with
  | [] => tm
  | info :: todo' =>
      if decide (token info = tok) then
        {| tokens := <[i := set_exhausted true info]> (tokens tm);
           current_token_index := (i + 1) mod length (tokens tm) |}
      else mark_loop tok (S i) todo' tm
  end.

(** [mark_token_exhausted] *)
Definition mark_token_exhausted (tok : string) (tm : t) : t :=
  mark_loop tok 0 (tokens tm) tm.

(** [reset_exhausted_status] *)
Definition reset_exhausted_status (tm : t) : t :=
  {| tokens := set_exhausted false <$> tokens tm;
     current_token_index := current_token_index tm |}.

(** [get_next_token] with one unit of fuel per entry of the pool, which is
    enough for the loop to finish (see [next_token_returns]). *)
Definition next_token (tm : t) : next_result :=
  match get_next_token (length (tokens tm)) tm with
  | Some r => r
  | None => NextResult (Return None) tm 0
  end.

(** Number of entries that are not exhausted. *)
Definition usable (tm : t) : nat :=
  length (filter (λ e, is_exhausted e = false) (tokens tm)).

(** One operation on a manager. *)
Inductive step : t → t → Prop :=
| step_load file tm : step tm (load_tokens file tm)
| step_next fuel tm r : get_next_token fuel tm = Some r → step tm (after r)
| step_mark tok tm : step tm (mark_token_exhausted tok tm)
| step_reset tm : step tm (reset_exhausted_status tm).

(** An operation that does not shorten the token list: every [next],
    [mark] and [reset], and a reload of a file with at least as many
    entries. *)
Definition step_keeping (tm tm' : t) : Prop :=
  step tm tm' ∧ length (tokens tm) ≤ length (tokens tm').

(** The entry that the cursor reaches [k] places further on, wrapping. *)
Definition entry_at (tm : t) (k : nat) : option token_info :=
  tokens tm !! ((current_token_index tm + k) mod length (tokens tm)).

(** The cursor is a position of the list (or the list is empty). *)
Definition cursor_ok (tm : t) : Prop :=
  tokens tm ≠ [] → current_token_index tm < length (tokens tm).

End TokenManager.

(** ** Python text

    A [str] is represented by its UTF-8 encoding, one [ascii] per byte. *)

Module Text.

Definition chars (s : string) : list ascii := String.list_ascii_of_string s.
Definition text (l : list ascii) : string := String.string_of_list_ascii l.

(** The characters for which [str.isspace] holds, each by its encoding:
    U+0009 to U+000D, U+001C to U+0020, U+0085, U+00A0, U+1680, U+2000 to
    U+200A, U+2028, U+2029, U+202F, U+205F and U+3000. *)
Definition whitespace : list (list ascii) :=
  map (map ascii_of_nat)
    [ [9]; [10]; [11]; [12]; [13]; [28]; [29]; [30]; [31]; [32];
      [194; 133]; [194; 160];
      [225; 154; 128];
      [226; 128; 128]; [226; 128; 129]; [226; 128; 130]; [226; 128; 131];
      [226; 128; 132]; [226; 128; 133]; [226; 128; 134]; [226; 128; 135];
      [226; 128; 136]; [226; 128; 137]; [226; 128; 138];
      [226; 128; 168]; [226; 128; 169]; [226; 128; 175];
      [226; 129; 159];
      [227; 128; 128] ].

(** [s] without the encoding of [ws] that it starts with, if any. *)
Definition strip_one (ws : list (list ascii)) (s : list ascii)
  : option (list ascii) :=
  (λ w, drop (length w) s) <$> List.find (λ w, bool_decide (w `prefix_of` s)) ws.

(** Removes leading characters of [ws], at most [fuel] of them. *)
Fixpoint lstrip_go (fuel : nat) (ws : list (list ascii)) (s : list ascii)
  : list ascii :=
  match fuel with
  | O => s
  | S fuel' =>
      match strip_one ws s with
      | Some rest => lstrip_go fuel' ws rest
      | None => s
      end
  end.

Definition lstrip (s : list ascii) : list ascii :=
  lstrip_go (length s) whitespace s.

Definition rstrip (s : list ascii) : list ascii :=
  reverse (lstrip_go (length s) (reverse <$> whitespace) (reverse s)).

(** [s.strip()] *)
Definition strip (s : string) : string := text (rstrip (lstrip (chars s))).

Definition newline : ascii := ascii_of_nat 10.

(** [s.split('\n')] *)
Fixpoint split_newline (s : string) : list string :=
  match s with
  | EmptyString => [EmptyString]
  | String a r =>
      if decide (a = newline) then EmptyString :: split_newline r
      else match split_newline r with
           | line :: lines => String a line :: lines
           | [] => [String a EmptyString]
           end
  end.

(** [s.startswith(p)] *)
Definition startswith (p s : string) : bool := String.prefix p s.

(** [s[n:]], for an [s] whose first [n] characters are one byte each, as
    they are behind the guard [line.startswith('data: ')]. *)
Fixpoint drop_chars (n : nat) (s : string) : string :=
  match n, s with
  | S n', String _ r => drop_chars n' r
  | _, _ => s
  end.

(** A continuation byte. *)
Definition cont (b : nat) : bool := bool_decide (128 ≤ b ≤ 191).

(** Well-formed UTF-8, as [bytes.decode('utf-8')] accepts it: no overlong
    form, no surrogate, nothing above U+10FFFF. *)
Fixpoint utf8_valid (bs : list nat) : bool :=
  match bs with
  | [] => true
  | b :: r =>
      if decide (b < 128) then utf8_valid r
      else if decide (194 ≤ b ≤ 223) then
        match r with
        | c1 :: r1 => cont c1 && utf8_valid r1
        | _ => false
        end
      else if decide (224 ≤ b ≤ 239) then
        match r with
        | c1 :: c2 :: r2 =>
            cont c1 && cont c2
            && negb (bool_decide (b = 224 ∧ c1 < 160))
            && negb (bool_decide (b = 237 ∧ 160 ≤ c1))
            && utf8_valid r2
        | _ => false
        end
      else if decide (240 ≤ b ≤ 244) then
        match r with
        | c1 :: c2 :: c3 :: r3 =>
            cont c1 && cont c2 && cont c3
            && negb (bool_decide (b = 240 ∧ c1 < 144))
            && negb (bool_decide (b = 244 ∧ 144 ≤ c1))
            && utf8_valid r3
        | _ => false
        end
      else false
  end.

End Text.

(** ** Values read by [json.loads] *)

Module Json.

(** A Python object as [json.loads] builds them: [None], a [bool], an
    [int], a [float], a [str], a [list] or a [dict] (its items, in order). *)
#[warnings="-register-all"]
Inductive value : Type :=
| JNull
| JBool (b : bool)
| JInt (n : Z)
| JFloat (f : SpecFloat.spec_float)
| JStr (s : string)
| JList (l : list value)
| JDict (d : list (string * value)).

(** Truth value of an object, as [if content:] takes it. *)
Definition truthy (v : value) : bool :=
  match v with
  | JNull => false
  | JBool b => b
  | JInt n => negb (bool_decide (n = 0%Z))
  | JFloat (SpecFloat.S754_zero _) => false
  | JFloat _ => true
  | JStr s => negb (bool_decide (s = EmptyString))
  | JList l => negb (bool_decide (length l = 0))
  | JDict d => negb (bool_decide (length d = 0))
  end.

(** The value bound to [key] in the items of a dict; a later binding of the
    same key replaces an earlier one. *)
Fixpoint lookup_key (key : string) (d : list (string * value)) : option value :=
  match d with
  | [] => None
  | (k, v) :: d' =>
      match lookup_key key d' with
      | Some v' => Some v'
      | None => if decide (k = key) then Some v else None
      end
  end.

(** [v.get(key, dflt)]: only a dict has [get]. *)
Definition get (key : string) (dflt : value) (v : value) : result value :=
  match v with
  | JDict d => Return (default dflt (lookup_key key d))
  | _ => Raise AttributeError
  end.

(** Number of bytes of the UTF-8 character that starts with byte [a]. *)
Definition char_width (a : ascii) : nat :=
  let n := nat_of_ascii a in
  if decide (n < 128) then 1
  else if decide (n < 224) then 2
  else if decide (n < 240) then 3
  else 4.

(** [v[0]] *)
Definition item0 (v : value) : result value :=
  match v with
  | JList [] => Raise IndexError
  | JList (x :: _) => Return x
  | JStr EmptyString => Raise IndexError
  | JStr (String a r) => Return (JStr (String a (String.substring 0 (char_width a - 1) r)))
  | JDict _ => Raise KeyError
  | JNull | JBool _ | JInt _ | JFloat _ => Raise TypeError
  end.

(** [v == s] for a [str] literal [s]. *)
Definition eq_str (v : value) (s : string) : bool :=
  match v with
  | JStr s' => bool_decide (s' = s)
  | _ => false
  end.

End Json.

(** Sequencing of calls that may raise. *)
Global Instance result_ret : MRet result := λ A a, Return a.
Global Instance result_bind : MBind result := λ A B f r,
  match r with
  | Return a => f a
  | Raise e => Raise e
  end.

(** ** class ClaudeClient *)

Module ClaudeClient.
Import Json.

(** Truth value of a [str] or [None], as [if api_key:] takes it. *)
Definition truthy_str (o : option string) : bool :=
  match o with
  | Some s => negb (bool_decide (s = EmptyString))
  | None => false
  end.

(** [f"{o}"] *)
Definition format (o : option string) : string := default "None" o.

(** The fields of a client object; [api_key] and [api_url] are those of
    [BaseClient]. *)
Record t : Type := Mk {
  token_manager : TokenManager.t;
  api_key : option string;
  api_url : string;
  provider : string
}.

Definition set_token_manager (tm : TokenManager.t) (c : t) : t :=
  Mk tm (api_key c) (api_url c) (provider c).
Definition set_api_key (k : option string) (c : t) : t :=
  Mk (token_manager c) k (api_url c) (provider c).

(** Modelled from the spec: [BaseClient.__init__] ([base_client.py] is not
    among the sources), which keeps its two arguments as [self.api_key] and
    [self.api_url], the active credential and the address. *)
Definition BaseClient_init (tm : TokenManager.t) (provider : string)
    (key : option string) (url : string) : t :=
  Mk tm key url provider.

(** [ClaudeClient.__init__]; [file] is the content of the token file, as for
    [TokenManager.load_tokens]. *)
Definition init (key : option string) (file : option (list TokenManager.token_info))
    (url : string) (provider : string) : result t :=
  let r := TokenManager.next_token (TokenManager.init file) in
  initial_token ← TokenManager.returned r;
  if negb (truthy_str initial_token) && truthy_str key then Raise ValueError
  else if truthy_str key then
    Return (BaseClient_init (TokenManager.after r) provider key url)
  else
    Return (BaseClient_init (TokenManager.after r) provider initial_token url).

(** The request body, the dict [data]. *)
Record body : Type := Body {
  model : string;
  messages : list value;
  max_tokens : option Z;
  stream : bool
}.

(** A header dict maps a name to a [str] or to [None]. *)
Record request : Type := Request {
  headers : gmap string (option string);
  data : body
}.

(** [_update_headers] *)
Definition update_headers (c : t) (hs : gmap string (option string))
    (new_token : string) : gmap string (option string) :=
  if decide (provider c = "anthropic") then <["x-api-key" := Some new_token]> hs
  else <["Authorization" := Some ("Bearer " +:+ new_token)]> hs.

(** What the server does with one request: it answers with status 200 and
    a body that [iter_any] delivers in [chunks] (up to its end, or to the
    failure of the transport); or with another status and the body
    [error_text]; or the transport fails before the status is read. *)
Inductive response : Type :=
| Ok200 (chunks : list (list Byte.byte))
| HttpError (error_text : string)
| TransportError.

(** Why [_make_request] gave up: [get_next_token] had no token left; the
    response was an error other than the quota one; an exception reached
    the [except Exception] clause. Each is logged, none is raised. *)
Inductive failure : Type :=
| NoMoreTokens
| RequestFailed
| RequestRaised.

(** The generator yielded the chunks of a response, or gave up. *)
Inductive ending : Type :=
| Streamed (chunks : list (list Byte.byte))
| Ended (why : failure).

(** A run of [_make_request]: the requests it posted, in order, the client
    afterwards, and how it ended ([None]: the fuel ran out first). *)
Record run : Type := Run {
  sent : list request;
  client_after : t;
  ended : option ending
}.

(** The run [r], after the request [req] was posted. *)
Definition posted (req : request) (r : run) : run :=
  Run (req :: sent r) (client_after r) (ended r).

(** [self.token_manager.mark_token_exhausted(self.api_key)]; no token equals
    [None]. *)
Definition mark_active (c : t) : TokenManager.t :=
  match api_key c with
  | Some k => TokenManager.mark_token_exhausted k (token_manager c)
  | None => token_manager c
  end.

(** An output event, [(kind, content)]. *)
Definition event : Type := string * value.

(** How the body of the decoding loop leaves a line. *)
Inductive flow : Type :=
| Continue
| Returned
| Raised (e : exn).

Section WithJson.

(** [json.loads]: the value it returns or the exception it raises, which is
    [JSONDecodeError] for a text that is not JSON, and can also be
    [ValueError] (an integer literal beyond the interpreter's digit limit)
    or [RecursionError] (nesting beyond its recursion limit). *)
Variable json_loads : string → result value.

(** The server's answer to the [n]-th request. *)
Variable server : nat → request → response.

(** The error body parses and carries the quota-exhaustion code. *)
Definition carries_quota_code (error_text : string) : Prop :=
  ∃ error_data error_code,
    json_loads error_text = Return error_data
    ∧ get "error" (JDict []) error_data ≫= get "code" JNull = Return error_code
    ∧ eq_str error_code "insufficient_user_quota" = true.

(** The [while True] loop of [_make_request], at its [n]-th request. *)
Fixpoint make_request (fuel : nat) (n : nat) (c : t)
    (hs : gmap string (option string)) (d : body) : run :=
  match fuel with
  | O => Run [] c None
  | S fuel' =>
      let req := Request hs d in
      match server n req with
      | TransportError => Run [req] c (Some (Ended RequestRaised))
      | Ok200 chunks => Run [req] c (Some (Streamed chunks))
      | HttpError error_text =>
          match json_loads error_text with
          | Raise JSONDecodeError => Run [req] c (Some (Ended RequestFailed))
          | Raise _ => Run [req] c (Some (Ended RequestRaised))
          | Return error_data =>
              match get "error" (JDict []) error_data ≫= get "code" JNull with
              | Raise _ => Run [req] c (Some (Ended RequestRaised))
              | Return error_code =>
                  if eq_str error_code "insufficient_user_quota" then
                    let r := TokenManager.next_token (mark_active c) in
                    let c1 := set_token_manager (TokenManager.after r) c in
                    match TokenManager.returned r with
                    | Raise _ => Run [req] c1 (Some (Ended RequestRaised))
                    | Return None => Run [req] c1 (Some (Ended NoMoreTokens))
                    | Return (Some next_token) =>
                        if negb (truthy_str (Some next_token)) then
                          Run [req] c1 (Some (Ended NoMoreTokens))
                        else
                          posted req
                            (make_request fuel' (S n)
                               (set_api_key (Some next_token) c1)
                               (update_headers c hs next_token) d)
                    end
                  else Run [req] c (Some (Ended RequestFailed))
              end
          end
      end
  end.

(** The headers and the body that [stream_chat] builds. *)
Definition build_request (c : t) (msgs : list value) (mdl : string)
  : result request :=
  if decide (provider c = "openrouter") then
    Return (Request
      (<["Authorization" := Some ("Bearer " +:+ format (api_key c))]>
       (<["Content-Type" := Some "application/json"]>
        (<["HTTP-Referer" := Some "https://github.com/ErlichLiu/DeepClaude"]>
         (<["X-Title" := Some "DeepClaude"]> ∅))))
      (Body "anthropic/claude-3.5-sonnet" msgs None true))
  else if decide (provider c = "oneapi") then
    Return (Request
      (<["Authorization" := Some ("Bearer " +:+ format (api_key c))]>
       (<["Content-Type" := Some "application/json"]> ∅))
      (Body mdl msgs None true))
  else if decide (provider c = "anthropic") then
    Return (Request
      (<["x-api-key" := api_key c]>
       (<["anthropic-version" := Some "2023-06-01"]>
        (<["content-type" := Some "application/json"]>
         (<["accept" := Some "text/event-stream"]> ∅))))
      (Body mdl msgs (Some 8192%Z) true))
  else Raise ValueError.

(** [data.get('choices', [{}])[0].get('delta', {}).get('content', '')] *)
Definition openai_content (v : value) : result value :=
  choices ← get "choices" (JList [JDict []]) v;
  first ← item0 choices;
  delta ← get "delta" (JDict []) first;
  get "content" (JStr "") delta.

(** The Anthropic branch: [None] when the type is not
    ['content_block_delta']. *)
Definition anthropic_content (v : value) : result (option value) :=
  type ← get "type" JNull v;
  if eq_str type "content_block_delta" then
    delta ← get "delta" (JDict []) v;
    content ← get "text" (JStr "") delta;
    Return (Some content)
  else Return None.

Definition yield_if_truthy (content : value) : list event :=
  if truthy content then [("answer", content)] else [].

(** [try: ... except json.JSONDecodeError: continue] around the decoding of
    one payload: this exception alone is caught, and the loop goes on. *)
Definition except_JSONDecodeError (r : list event * flow) : list event * flow :=
  match r with
  | (evs, Raised JSONDecodeError) => (evs, Continue)
  | _ => r
  end.

(** The body of [for line in chunk_str.split('\n')] on one line. *)
Definition decode_line (c : t) (line : string) : list event * flow :=
  if Text.startswith "data: " line then
    let json_str := Text.drop_chars 6 line in
    if decide (Text.strip json_str = "[DONE]") then ([], Returned)
    else
      except_JSONDecodeError
        match json_loads json_str with
        | Raise e => ([], Raised e)
        | Return v =>
            if decide (provider c = "openrouter" ∨ provider c = "oneapi") then
              match openai_content v with
              | Return content => (yield_if_truthy content, Continue)
              | Raise e => ([], Raised e)
              end
            else if decide (provider c = "anthropic") then
              match anthropic_content v with
              | Return (Some content) => (yield_if_truthy content, Continue)
              | Return None => ([], Continue)
              | Raise e => ([], Raised e)
              end
            else ([], Raised ValueError)
        end
  else ([], Continue).

(** The loop over the lines of a chunk. *)
Fixpoint decode_lines (c : t) (lines : list string) : list event * flow :=
  match lines with
  | [] => ([], Continue)
  | line :: lines' =>
      match decode_line c line with
      | (evs, Continue) =>
          let '(evs', f) := decode_lines c lines' in (evs ++ evs', f)
      | stopped => stopped
      end
  end.

(** [chunk.decode('utf-8')], [None] when it raises. *)
Definition decode_utf8 (chunk : list Byte.byte) : option string :=
  if Text.utf8_valid (Byte.to_nat <$> chunk)
  then Some (String.string_of_list_byte chunk) else None.

(** The body of [async for chunk in self._make_request(...)] on one chunk. *)
Definition decode_chunk (c : t) (chunk : list Byte.byte) : list event * flow :=
  match decode_utf8 chunk with
  | None => ([], Raised UnicodeDecodeError)
  | Some chunk_str =>
      if decide (Text.strip chunk_str = "") then ([], Continue)
      else decode_lines c (Text.split_newline chunk_str)
  end.

(** The loop over the chunks. *)
Fixpoint decode_chunks (c : t) (chunks : list (list Byte.byte))
  : list event * flow :=
  match chunks with
  | [] => ([], Continue)
  | chunk :: chunks' =>
      match decode_chunk c chunk with
      | (evs, Continue) =>
          let '(evs', f) := decode_chunks c chunks' in (evs ++ evs', f)
      | stopped => stopped
      end
  end.

(** What a caller that drains [stream_chat] sees: the events, how the
    generator ended ([None]: the fuel of the retry loop ran out), and the
    run of [_make_request] behind it. *)
Record chat : Type := Chat {
  events : list event;
  outcome : option (result unit);
  requests : option run
}.

Definition finish (f : flow) : result unit :=
  match f with
  | Raised e => Raise e
  | Continue | Returned => Return tt
  end.

(** [stream_chat] *)
Definition stream_chat (fuel : nat) (c : t) (msgs : list value) (mdl : string)
  : chat :=
  match build_request c msgs mdl with
  | Raise e => Chat [] (Some (Raise e)) None
  | Return req =>
      let r := make_request fuel 0 c (headers req) (data req) in
      match ended r with
      | None => Chat [] None (Some r)
      | Some (Ended _) => Chat [] (Some (Return tt)) (Some r)
      | Some (Streamed chunks) =>
          let '(evs, f) := decode_chunks (client_after r) chunks in
          Chat evs (Some (finish f)) (Some r)
      end
  end.

End WithJson.

End ClaudeClient.

(** ** A reference decoder for [json.loads]

    The client is specified for any decoder. To run it on concrete
    responses, this one reads the JSON texts without [\u] escapes and
    without fractions or exponents, nested no deeper than the interpreter
    allows; it answers [JSONDecodeError] to every other text. *)

Module JsonText.
Import Json.

Definition quote : ascii := ascii_of_nat 34.
Definition backslash : ascii := ascii_of_nat 92.

(** Apostrophes written for double quotes, to spell a JSON text. *)
Fixpoint q (s : string) : string :=
  match s with
  | EmptyString => EmptyString
  | String a r => String (if decide (a = "'"%char) then quote else a) (q r)
  end.

Definition blank (a : ascii) : bool :=
  bool_decide (nat_of_ascii a ∈ [32; 9; 10; 13]).

Fixpoint skip_blank (s : list ascii) : list ascii :=
  match s with
  | a :: r => if blank a then skip_blank r else s
  | [] => []
  end.

Definition unescape (a : ascii) : result ascii :=
  if decide (a = quote) then Return quote
  else if decide (a = backslash) then Return backslash
  else if decide (a = "/"%char) then Return "/"%char
  else if decide (a = "b"%char) then Return (ascii_of_nat 8)
  else if decide (a = "f"%char) then Return (ascii_of_nat 12)
  else if decide (a = "n"%char) then Return (ascii_of_nat 10)
  else if decide (a = "r"%char) then Return (ascii_of_nat 13)
  else if decide (a = "t"%char) then Return (ascii_of_nat 9)
  else Raise JSONDecodeError.

(** The rest of a string literal, after its opening quote. *)
Fixpoint read_string (s : list ascii) : result (list ascii * list ascii) :=
  match s with
  | [] => Raise JSONDecodeError
  | a :: r =>
      if decide (a = quote) then Return ([], r)
      else if decide (a = backslash) then
        match r with
        | e :: r' =>
            c ← unescape e;
            '(cs, rest) ← read_string r';
            Return (c :: cs, rest)
        | [] => Raise JSONDecodeError
        end
      else if decide (nat_of_ascii a < 32) then Raise JSONDecodeError
      else '(cs, rest) ← read_string r; Return (a :: cs, rest)
  end.

Definition digit (a : ascii) : option Z :=
  let n := nat_of_ascii a in
  if decide (48 ≤ n ≤ 57) then Some (Z.of_nat (n - 48)) else None.

Fixpoint read_digits (acc : Z) (s : list ascii) : Z * list ascii :=
  match s with
  | a :: r =>
      match digit a with
      | Some d => read_digits (10 * acc + d) r
      | None => (acc, s)
      end
  | [] => (acc, [])
  end.

(** The longest integer literal that [int] converts
    ([sys.int_info.default_max_str_digits]). *)
Definition max_str_digits : nat := 4300.

(** An integer literal: digits without a superfluous leading zero, not
    followed by a fraction or an exponent. The conversion of a literal of
    more than [max_str_digits] digits raises [ValueError]. *)
Definition read_nat (s : list ascii) : result (Z * list ascii) :=
  match s with
  | a :: r =>
      match digit a with
      | None => Raise JSONDecodeError
      | Some d =>
          let '(n, rest) :=
            if decide (d = 0%Z) then (0%Z, r) else read_digits d r in
          if match rest with
             | b :: _ =>
                 bool_decide (is_Some (digit b)
                              ∨ b ∈ ["."%char; "e"%char; "E"%char])
             | [] => false
             end
          then Raise JSONDecodeError
          else if decide (max_str_digits < length s - length rest)
          then Raise ValueError
          else Return (n, rest)
      end
  | [] => Raise JSONDecodeError
  end.

Definition read_literal (s : list ascii) : result (value * list ascii) :=
  match s with
  | "n"%char :: "u"%char :: "l"%char :: "l"%char :: r => Return (JNull, r)
  | "t"%char :: "r"%char :: "u"%char :: "e"%char :: r => Return (JBool true, r)
  | "f"%char :: "a"%char :: "l"%char :: "s"%char :: "e"%char :: r =>
      Return (JBool false, r)
  | "-"%char :: r => '(n, rest) ← read_nat r; Return (JInt (- n), rest)
  | _ => '(n, rest) ← read_nat s; Return (JInt n, rest)
  end.

Fixpoint read_value (fuel : nat) (s : list ascii) : result (value * list ascii) :=
  match fuel with
  | O => Raise JSONDecodeError
  | S fuel' =>
      match skip_blank s with
      | [] => Raise JSONDecodeError
      | a :: r =>
          if decide (a = quote) then
            '(cs, rest) ← read_string r; Return (JStr (Text.text cs), rest)
          else if decide (a = "["%char) then
            match skip_blank r with
            | "]"%char :: rest => Return (JList [], rest)
            | _ => '(vs, rest) ← read_elements fuel' r; Return (JList vs, rest)
            end
          else if decide (a = "{"%char) then
            match skip_blank r with
            | "}"%char :: rest => Return (JDict [], rest)
            | _ => '(kvs, rest) ← read_members fuel' r; Return (JDict kvs, rest)
            end
          else read_literal (a :: r)
      end
  end
with read_elements (fuel : nat) (s : list ascii)
  : result (list value * list ascii) :=
  match fuel with
  | O => Raise JSONDecodeError
  | S fuel' =>
      '(v, rest) ← read_value fuel' s;
      match skip_blank rest with
      | ","%char :: r =>
          '(vs, rest') ← read_elements fuel' r; Return (v :: vs, rest')
      | "]"%char :: r => Return ([v], r)
      | _ => Raise JSONDecodeError
      end
  end
with read_members (fuel : nat) (s : list ascii)
  : result (list (string * value) * list ascii) :=
  match fuel with
  | O => Raise JSONDecodeError
  | S fuel' =>
      match skip_blank s with
      | a :: r =>
          if decide (a = quote) then
            '(k, rest) ← read_string r;
            match skip_blank rest with
            | ":"%char :: r1 =>
                '(v, rest1) ← read_value fuel' r1;
                match skip_blank rest1 with
                | ","%char :: r2 =>
                    '(kvs, rest2) ← read_members fuel' r2;
                    Return ((Text.text k, v) :: kvs, rest2)
                | "}"%char :: r2 => Return ([(Text.text k, v)], r2)
                | _ => Raise JSONDecodeError
                end
            | _ => Raise JSONDecodeError
            end
          else Raise JSONDecodeError
      | [] => Raise JSONDecodeError
      end
  end.

Definition loads (s : string) : result value :=
  '(v, rest) ← read_value (2 * String.length s + 2) (Text.chars s);
  match skip_blank rest with
  | [] => Return v
  | _ => Raise JSONDecodeError
  end.

End JsonText.

(** ** The responses of the scenarios *)

Module Scenario.
Import Json ClaudeClient.

Definition nl : string := String Text.newline EmptyString.

Definition line_hi : string :=
  "data: " +:+ JsonText.q "{'type':'content_block_delta','delta':{'text':'Hi'}}".
Definition line_more : string :=
  "data: " +:+ JsonText.q "{'type':'content_block_delta','delta':{'text':' there'}}".
Definition line_ok : string :=
  "data: " +:+ JsonText.q "{'choices':[{'delta':{'content':'ok'}}]}".

(** A data line whose payload is an integer literal of [n] digits. *)
Definition line_digits (n : nat) : string :=
  "data: " +:+ Text.text (replicate n "1"%char).
Definition line_done : string := "data: [DONE]".

Definition quota_body : string :=
  JsonText.q "{'error':{'code':'insufficient_user_quota'}}".

Definition bytes (s : string) : list Byte.byte := String.list_byte_of_string s.

Definition pool : list TokenManager.token_info :=
  [TokenManager.TokenInfo "t1" (Some false);
   TokenManager.TokenInfo "t2" (Some false)].

(** A client of the native provider whose active credential is the first
    token of [pool]. *)
Definition client : t :=
  Mk (TokenManager.Mk pool 0) (Some "t1")
     "https://api.anthropic.com/v1/messages" "anthropic".

(** A server that has no quota left for any credential. *)
Definition no_quota (n : nat) (req : request) : response :=
  HttpError quota_body.

(** A server that has no quota left for [t1] and streams two lines for any
    other credential. *)
Definition quota_then_hi (n : nat) (req : request) : response :=
  if decide (headers req !! "x-api-key" = Some (Some "t1"))
  then HttpError quota_body
  else Ok200 [bytes (line_hi +:+ nl +:+ line_done)].

(** The request that [stream_chat] builds for a client. *)
Definition request_of (c : t) : request :=
  match build_request c [] "claude-3-5-sonnet-20241022" with
  | Return req => req
  | Raise _ => Request ∅ (Body EmptyString [] None false)
  end.

(** A client of an OpenAI-style provider, and a server that streams one
    line to it. *)
Definition openrouter_client : t :=
  Mk (TokenManager.Mk pool 0) (Some "t1")
     "https://openrouter.ai/api/v1/chat/completions" "openrouter".

Definition streams_ok (n : nat) (req : request) : response :=
  Ok200 [bytes line_ok].

(** A token file that lists the same token twice, and a client whose
    active credential is that token: before any request, and after the first
    quota failure. *)
Definition twice : list TokenManager.token_info :=
  [TokenManager.TokenInfo "a" None; TokenManager.TokenInfo "a" None].

Definition client_twice : t :=
  Mk (TokenManager.Mk twice 0) (Some "a")
     "https://api.anthropic.com/v1/messages" "anthropic".

Definition client_twice_rotated : t :=
  Mk (TokenManager.Mk
        [TokenManager.TokenInfo "a" (Some true); TokenManager.TokenInfo "a" None] 1)
     (Some "a") "https://api.anthropic.com/v1/messages" "anthropic".

End Scenario.

(** ** Using a pool *)

Module Pool.
Import TokenManager.

(** What the client does with its manager once it is built: a call of
    [get_next_token] or a call of [mark_token_exhausted]. *)
Inductive use : t → t → Prop :=
| use_next fuel tm r : get_next_token fuel tm = Some r → use tm (after r)
| use_mark tok tm : use tm (mark_token_exhausted tok tm).

(** Every token of the pool is a non-empty string. *)
Definition tokens_nonempty (tm : t) : Prop :=
  ∀ e, e ∈ tokens tm → token e ≠ EmptyString.

End Pool.

(** ** The credential on the wire *)

Module Wire.
Import ClaudeClient.

(** The providers that [stream_chat] accepts. *)
Definition supported (p : string) : Prop :=
  p = "openrouter" ∨ p = "oneapi" ∨ p = "anthropic".

(** The header that carries the credential of a client, and what it holds
    for the client's active credential. *)
Definition auth_name (c : t) : string :=
  if decide (provider c = "anthropic") then "x-api-key" else "Authorization".

Definition auth_value (c : t) : option string :=
  if decide (provider c = "anthropic") then api_key c
  else Some ("Bearer " +:+ format (api_key c)).

(** The headers carry the active credential of the client. *)
Definition in_sync (c : t) (hs : gmap string (option string)) : Prop :=
  hs !! auth_name c = Some (auth_value c).

(** [json.loads] raises [e] on the payload of a data line of the chunks. *)
Definition loads_raises (json_loads : string → result Json.value)
    (chunks : list (list Byte.byte)) (e : exn) : Prop :=
  ∃ chunk chunk_str line,
    chunk ∈ chunks
    ∧ decode_utf8 chunk = Some chunk_str
    ∧ line ∈ Text.split_newline chunk_str
    ∧ Text.startswith "data: " line = true
    ∧ json_loads (Text.drop_chars 6 line) = Raise e.

End Wire.


(** * Properties of the token pool *)

Module TokenManagerSpec.
Import TokenManager.

(** Reduce the projections of the records, and nothing else. *)
Ltac fields :=
  cbn [tokens current_token_index returned after probes token exhausted] in *.

Lemma mod_succ_shift (s p n : nat) :
  ((s + p) mod n + 1) mod n = (s + S p) mod n.
Proof.
  destruct n as [|n]; [simpl; lia|].
  rewrite Nat.Div0.add_mod_idemp_l. f_equal. lia.
Qed.

Lemma mod_back_to_start (s p n : nat) :
  s < n → p < n → (s + S p) mod n = s ↔ S p = n.
Proof.
  intros Hs Hp. split.
  - intros Heq. destruct (decide (s + S p < n)) as [Hlt|Hge].
    + rewrite Nat.mod_small in Heq by done. lia.
    + assert (Hsub : s + S p = (s + S p - n) + 1 * n) by lia.
      rewrite Hsub, Nat.Div0.mod_add, Nat.mod_small in Heq by lia. lia.
  - intros <-. replace (s + S p) with (s + 1 * S p) by lia.
    rewrite Nat.Div0.mod_add. by apply Nat.mod_small.
Qed.

(** The loop, started [p] probes into a run of [p + k] exhausted entries
    that ends at a usable one, stops there. *)
Lemma scan_finds (l : list token_info) (s : nat) (info : token_info) :
  s < length l →
  ∀ k p fuel,
    p + k < length l →
    k < fuel →
    (∀ j, j < k → ∃ e, l !! ((s + (p + j)) mod length l) = Some e
                       ∧ is_exhausted e = true) →
    l !! ((s + (p + k)) mod length l) = Some info →
    is_exhausted info = false →
    scan fuel s p (Mk l ((s + p) mod length l))
    = Some (NextResult (Return (Some (token info)))
                       (Mk l ((s + (p + k)) mod length l)) (S (p + k))).
Proof.
  intros Hs k. induction k as [|k IH]; intros p fuel Hk Hfuel Hrun Hinfo Hok.
  - destruct fuel as [|fuel]; [lia|]. simpl.
    rewrite Nat.add_0_r in *. by rewrite Hinfo, Hok.
  - destruct fuel as [|fuel]; [lia|]. simpl.
    destruct (Hrun 0 ltac:(lia)) as (e & He & Hex).
    rewrite Nat.add_0_r in He. rewrite He, Hex. simpl.
    rewrite mod_succ_shift. case_decide as Hback.
    + apply mod_back_to_start in Hback; lia.
    + unfold set_index. simpl.
      rewrite (IH (S p) fuel); [ | lia | lia | | | done ].
      * by replace (S p + k) with (p + S k) by lia.
      * intros j Hj. destruct (Hrun (S j) ltac:(lia)) as (e' & He' & Hex').
        exists e'. split; [|done]. by replace (S p + j) with (p + S j) by lia.
      * by replace (S p + k) with (p + S k) by lia.
Qed.

(** The loop, started [p] probes into a list whose remaining entries are all
    exhausted, comes back to where it started after reading each of them. *)
Lemma scan_all_exhausted (l : list token_info) (s : nat) :
  s < length l →
  ∀ fuel p,
    p < length l →
    length l - p ≤ fuel →
    (∀ j, p + j < length l →
          ∃ e, l !! ((s + (p + j)) mod length l) = Some e
               ∧ is_exhausted e = true) →
    scan fuel s p (Mk l ((s + p) mod length l))
    = Some (NextResult (Return None) (Mk l s) (length l)).
Proof.
  intros Hs fuel. induction fuel as [|fuel IH]; intros p Hp Hfuel Hrun; [lia|].
  simpl. destruct (Hrun 0 ltac:(lia)) as (e & He & Hex).
  rewrite Nat.add_0_r in He. rewrite He, Hex. simpl.
  rewrite mod_succ_shift. case_decide as Hback.
  - apply mod_back_to_start in Hback; [|done..].
    unfold set_index. simpl.
    rewrite (proj2 (mod_back_to_start s p (length l) Hs Hp) Hback).
    by rewrite Hback.
  - assert (S p ≠ length l) by (intros Heq; by apply Hback, mod_back_to_start).
    unfold set_index. simpl. apply IH; [lia..|].
    intros j Hj. destruct (Hrun (S j) ltac:(lia)) as (e' & He' & Hex').
    exists e'. split; [|done]. by replace (S p + j) with (p + S j) by lia.
Qed.

(** Whatever the fuel, the loop changes only the cursor, and keeps it a
    position of the list. *)
Lemma scan_after (fuel s p : nat) (tm : t) (r : next_result) :
  scan fuel s p tm = Some r →
  tokens (after r) = tokens tm
  ∧ (current_token_index tm < length (tokens tm) →
     current_token_index (after r) < length (tokens tm)).
Proof.
  revert p tm. induction fuel as [|fuel IH]; intros p tm Hscan; [done|].
  simpl in Hscan.
  destruct (tokens tm !! current_token_index tm) as [info|] eqn:Hinfo.
  - destruct (is_exhausted info); simpl in Hscan.
    + case_decide.
      * injection Hscan as <-. simpl. split; [done|]. intros Hlt.
        apply Nat.mod_upper_bound. lia.
      * apply IH in Hscan as [Htok Hcur]. simpl in *. split; [done|].
        intros Hlt. apply Hcur, Nat.mod_upper_bound. lia.
    + by injection Hscan as <-.
  - by injection Hscan as <-.
Qed.

(** A scan that returns a token has skipped a run of exhausted entries and
    stopped on the entry it returns. *)
Lemma scan_success (l : list token_info) (s : nat) (tok : string) :
  s < length l →
  ∀ fuel p r,
    p < length l →
    scan fuel s p (Mk l ((s + p) mod length l)) = Some r →
    returned r = Return (Some tok) →
    ∃ k info,
      p + k < length l
      ∧ r = NextResult (Return (Some tok))
                       (Mk l ((s + (p + k)) mod length l)) (S (p + k))
      ∧ l !! ((s + (p + k)) mod length l) = Some info
      ∧ token info = tok ∧ is_exhausted info = false
      ∧ ∀ j, j < k → ∃ e, l !! ((s + (p + j)) mod length l) = Some e
                          ∧ is_exhausted e = true.
Proof.
  intros Hs fuel. induction fuel as [|fuel IH]; intros p r Hp Hscan Hret; [done|].
  simpl in Hscan.
  destruct (l !! ((s + p) mod length l)) as [info|] eqn:Hinfo.
  - destruct (is_exhausted info) eqn:Hex; simpl in Hscan.
    + rewrite mod_succ_shift in Hscan. case_decide as Hback.
      * injection Hscan as <-. done.
      * assert (S p ≠ length l) by (intros Heq; by apply Hback, mod_back_to_start).
        unfold set_index in Hscan. simpl in Hscan.
        destruct (IH (S p) r ltac:(lia) Hscan Hret)
          as (k & info' & Hk & -> & Hlook & Htok & Hok & Hrun).
        exists (S k), info'.
        replace (p + S k) with (S p + k) by lia.
        split_and!; try done; try lia.
        intros [|j] Hj.
        -- exists info. by rewrite Nat.add_0_r.
        -- destruct (Hrun j ltac:(lia)) as (e & He & Hexh). exists e.
           by replace (p + S j) with (S p + j) by lia.
    + injection Hscan as <-. simpl in Hret. injection Hret as <-.
      exists 0, info. rewrite Nat.add_0_r.
      split_and!; try done. intros j Hj. lia.
  - injection Hscan as <-. done.
Qed.

Lemma mod_offset_fixed (c k n : nat) :
  c < n → k < n → (c + k) mod n = c ↔ k = 0.
Proof.
  intros Hc Hk. destruct k as [|k].
  - rewrite Nat.add_0_r, Nat.mod_small by done. done.
  - rewrite mod_back_to_start by lia. lia.
Qed.

(** The enumerating loop of [mark_token_exhausted], seen from any point
    [i = length pre] where no earlier entry matched. *)
Lemma mark_loop_spec (tok : string) (c : nat) (pre todo : list token_info) :
  let l := pre ++ todo in
  (∀ i info, todo !! i = Some info → token info = tok →
     (∀ j e, j < i → todo !! j = Some e → token e ≠ tok) →
     mark_loop tok (length pre) todo (Mk l c)
     = Mk (<[length pre + i := set_exhausted true info]> l)
          ((length pre + i + 1) mod length l))
  ∧ ((∀ e, e ∈ todo → token e ≠ tok) →
     mark_loop tok (length pre) todo (Mk l c) = Mk l c).
Proof.
  revert pre. induction todo as [|x todo IH]; intros pre l; subst l.
  - split; [by intros i info ?|done].
  - assert (Hshift : pre ++ x :: todo = (pre ++ [x]) ++ todo)
      by by rewrite <- app_assoc.
    assert (Hlen : length (pre ++ [x]) = S (length pre))
      by (rewrite length_app; simpl; lia).
    destruct (IH (pre ++ [x])) as [IHfound IHnone].
    rewrite <- Hshift, Hlen in IHfound, IHnone.
    split.
    + intros [|i] info Hlook Htok Hfirst; simpl in *.
      * injection Hlook as ->. rewrite decide_True by done.
        by rewrite Nat.add_0_r.
      * rewrite decide_False by (apply (Hfirst 0 x); [lia|done]).
        rewrite (IHfound i info Hlook Htok).
        -- by replace (length pre + S i) with (S (length pre + i)) by lia.
        -- intros j e Hj. apply (Hfirst (S j) e). lia.
    + intros Hnone. simpl.
      rewrite decide_False by (apply Hnone; by left).
      apply IHnone. intros e He. apply Hnone. by right.
Qed.

(** Scanning forward from the cursor either meets a first usable entry
    within [n] places or sees [n] exhausted ones. *)
Lemma first_usable_or_run (tm : t) (n : nat) :
  current_token_index tm < length (tokens tm) →
  n ≤ length (tokens tm) →
  (∃ k info, k < n
     ∧ (∀ j, j < k → ∃ e, entry_at tm j = Some e ∧ is_exhausted e = true)
     ∧ entry_at tm k = Some info ∧ is_exhausted info = false)
  ∨ (∀ j, j < n → ∃ e, entry_at tm j = Some e ∧ is_exhausted e = true).
Proof.
  intros Hc. induction n as [|n IH]; intros Hn.
  - right. intros j Hj. lia.
  - destruct (IH ltac:(lia)) as [(k & info & Hk & Hrun & Hlook & Hok)|Hrun].
    + left. exists k, info. split_and!; try done. lia.
    + destruct (lookup_lt_is_Some_2 (tokens tm)
                  ((current_token_index tm + n) mod length (tokens tm)))
        as [e He]; [apply Nat.mod_upper_bound; lia|].
      destruct (is_exhausted e) eqn:Hex.
      * right. intros j Hj. destruct (decide (j = n)) as [->|]; [by exists e|].
        apply Hrun. lia.
      * left. exists n, e. split_and!; try done. lia.
Qed.

(** Every position of the list is some offset from the cursor. *)
Lemma offset_reaches (c m n : nat) :
  c < n → m < n → (c + (m + n - c) mod n) mod n = m.
Proof.
  intros Hc Hm. rewrite Nat.Div0.add_mod_idemp_r.
  replace (c + (m + n - c)) with (m + 1 * n) by lia.
  rewrite Nat.Div0.mod_add. by apply Nat.mod_small.
Qed.

Lemma run_all_exhausted (tm : t) :
  current_token_index tm < length (tokens tm) →
  (∀ j, j < length (tokens tm) →
        ∃ e, entry_at tm j = Some e ∧ is_exhausted e = true) →
  ∀ e, e ∈ tokens tm → is_exhausted e = true.
Proof.
  intros Hc Hrun e [m Hm]%list_elem_of_lookup.
  assert (Hlt : m < length (tokens tm)) by by eapply lookup_lt_Some.
  destruct (Hrun ((m + length (tokens tm) - current_token_index tm)
                    mod length (tokens tm))) as (e' & He' & Hex).
  { apply Nat.mod_upper_bound. lia. }
  unfold entry_at in He'. rewrite offset_reaches in He' by done. congruence.
Qed.

(** The call stops at the first usable entry, [k] places after the cursor. *)
Lemma get_next_token_found (tm : t) (fuel k : nat) (info : token_info) :
  cursor_ok tm →
  length (tokens tm) ≤ fuel →
  k < length (tokens tm) →
  (∀ j, j < k → ∃ e, entry_at tm j = Some e ∧ is_exhausted e = true) →
  entry_at tm k = Some info →
  is_exhausted info = false →
  get_next_token fuel tm
  = Some (NextResult (Return (Some (token info)))
            (set_index ((current_token_index tm + k) mod length (tokens tm)) tm)
            (S k)).
Proof.
  destruct tm as [l c]. unfold cursor_ok, entry_at, get_next_token, set_index.
  fields. intros Hok Hfuel Hk Hrun Hlook Hus.
  destruct l as [|x l']; [simpl in Hk; lia|]. set (l := x :: l') in *.
  specialize (Hok ltac:(done)).
  pose proof (scan_finds l c info Hok k 0 fuel) as Hscan.
  rewrite !Nat.add_0_r, (Nat.mod_small c) in Hscan by done.
  apply Hscan; try done; lia.
Qed.

(** On a pool whose entries are all exhausted the call reads each of them
    once and returns [None], the cursor back where it was. *)
Lemma get_next_token_all_exhausted (tm : t) (fuel : nat) :
  cursor_ok tm →
  length (tokens tm) ≤ fuel →
  tokens tm ≠ [] →
  (∀ e, e ∈ tokens tm → is_exhausted e = true) →
  get_next_token fuel tm
  = Some (NextResult (Return None) tm (length (tokens tm))).
Proof.
  destruct tm as [l c]. unfold cursor_ok, get_next_token. fields.
  intros Hok Hfuel Hne Hall. specialize (Hok Hne).
  destruct l as [|x l']; [done|]. set (l := x :: l') in *.
  pose proof (scan_all_exhausted l c Hok fuel 0) as Hscan.
  rewrite !Nat.add_0_r, (Nat.mod_small c) in Hscan by done.
  apply Hscan; [simpl; lia|lia|].
  intros j Hj.
  destruct (lookup_lt_is_Some_2 l ((c + j) mod length l)) as [e He];
    [apply Nat.mod_upper_bound; simpl; lia|].
  exists e. split; [done|]. apply Hall. by eapply list_elem_of_lookup_2.
Qed.

Lemma get_next_token_empty (tm : t) (fuel : nat) :
  tokens tm = [] →
  get_next_token fuel tm = Some (NextResult (Return None) tm 0).
Proof. intros Hnil. unfold get_next_token. by rewrite Hnil. Qed.

(** A pool has a first usable entry after the cursor, or none at all. *)
Lemma first_usable_or_exhausted (tm : t) :
  cursor_ok tm →
  (∃ k info, k < length (tokens tm)
     ∧ (∀ j, j < k → ∃ e, entry_at tm j = Some e ∧ is_exhausted e = true)
     ∧ entry_at tm k = Some info ∧ is_exhausted info = false)
  ∨ (∀ e, e ∈ tokens tm → is_exhausted e = true).
Proof.
  intros Hok. destruct (decide (tokens tm = [])) as [Hnil|Hne].
  { right. rewrite Hnil. by intros e ?%elem_of_nil. }
  specialize (Hok Hne).
  destruct (first_usable_or_run tm (length (tokens tm)) Hok ltac:(done))
    as [Hfound|Hrun]; [by left|].
  right. by apply run_all_exhausted.
Qed.

(** C3. With the cursor at a position [i] of a pool of [N] entries,
    [get_next_token] returns the token of the first entry that is not
    exhausted, scanning forward from [i] and wrapping modulo [N]; when all
    [N] entries are exhausted it returns [None] after reading exactly [N]
    entries; on an empty pool it returns [None] without reading any. One of
    these cases always applies, so the call always returns. *)
Theorem get_next_token_first_usable (tm : t) (fuel : nat) :
  cursor_ok tm →
  length (tokens tm) ≤ fuel →
  (∀ k info,
     k < length (tokens tm) →
     (∀ j, j < k → ∃ e, entry_at tm j = Some e ∧ is_exhausted e = true) →
     entry_at tm k = Some info →
     is_exhausted info = false →
     get_next_token fuel tm
     = Some (NextResult (Return (Some (token info)))
               (set_index ((current_token_index tm + k) mod length (tokens tm)) tm)
               (S k)))
  ∧ (tokens tm ≠ [] →
     (∀ e, e ∈ tokens tm → is_exhausted e = true) →
     get_next_token fuel tm
     = Some (NextResult (Return None) tm (length (tokens tm))))
  ∧ (tokens tm = [] →
     get_next_token fuel tm = Some (NextResult (Return None) tm 0))
  ∧ ((∃ k info, k < length (tokens tm)
        ∧ (∀ j, j < k → ∃ e, entry_at tm j = Some e ∧ is_exhausted e = true)
        ∧ entry_at tm k = Some info ∧ is_exhausted info = false)
     ∨ (∀ e, e ∈ tokens tm → is_exhausted e = true)).
Proof.
  intros Hok Hfuel. split_and!.
  - intros k info Hk Hrun Hlook Hus. by apply get_next_token_found.
  - intros Hne Hall. by apply get_next_token_all_exhausted.
  - intros Hnil. by apply get_next_token_empty.
  - by apply first_usable_or_exhausted.
Qed.

(** C3, at a pool of three whose cursor is on an exhausted entry. *)
Lemma get_next_token_first_usable_witness :
  get_next_token 3
    (Mk [TokenInfo "t1" (Some true); TokenInfo "t2" None;
         TokenInfo "t3" (Some false)] 0)
  = Some (NextResult (Return (Some "t2"))
            (Mk [TokenInfo "t1" (Some true); TokenInfo "t2" None;
                 TokenInfo "t3" (Some false)] 1) 2).
Proof.
  refine (proj1 (get_next_token_first_usable
                   (Mk [TokenInfo "t1" (Some true); TokenInfo "t2" None;
                        TokenInfo "t3" (Some false)] 0) 3 _ _)
                1 (TokenInfo "t2" None) _ _ _ _).
  - intros _. simpl. lia.
  - simpl. lia.
  - simpl. lia.
  - intros j Hj. assert (j = 0) as -> by lia.
    exists (TokenInfo "t1" (Some true)). split; reflexivity.
  - reflexivity.
  - reflexivity.
Defined.

(** C2 as stated fails: with the cursor on an exhausted entry, a call that
    returns a token has moved the cursor. *)
Lemma get_next_token_moves_cursor :
  ∃ r, get_next_token 2 (Mk [TokenInfo "t1" (Some true); TokenInfo "t2" None] 0)
       = Some r
     ∧ returned r = Return (Some "t2")
     ∧ current_token_index (after r) = 1
     ∧ current_token_index (after r)
       ≠ current_token_index
           (Mk [TokenInfo "t1" (Some true); TokenInfo "t2" None] 0).
Proof. eexists. split; [reflexivity|]. simpl. split_and!; done. Qed.

(** What a call that returns a token has done. *)
Lemma get_next_token_success
    (tm : t) (fuel : nat) (r : next_result) (tok : string) :
  get_next_token fuel tm = Some r →
  returned r = Return (Some tok) →
  current_token_index tm < length (tokens tm)
  ∧ ∃ k info,
      k < length (tokens tm)
      ∧ r = NextResult (Return (Some tok))
              (Mk (tokens tm)
                  ((current_token_index tm + k) mod length (tokens tm)))
              (S k)
      ∧ entry_at tm k = Some info
      ∧ token info = tok
      ∧ is_exhausted info = false
      ∧ ∀ j, j < k → ∃ e, entry_at tm j = Some e ∧ is_exhausted e = true.
Proof.
  destruct tm as [l c]. unfold get_next_token, entry_at. fields.
  intros Hnext Hret. destruct l as [|x l'].
  { injection Hnext as <-. done. }
  set (l := x :: l') in *.
  assert (Hc : c < length l).
  { destruct fuel as [|fuel]; [done|]. cbn [scan] in Hnext. fields.
    destruct (l !! c) eqn:Hlook; [by eapply lookup_lt_Some|].
    injection Hnext as <-. done. }
  pose proof (scan_success l c tok Hc fuel 0 r) as Hscan.
  rewrite Nat.add_0_r, (Nat.mod_small c) in Hscan by done.
  destruct (Hscan ltac:(lia) Hnext Hret)
    as (k & info & Hk & -> & Hlook & Htok & Hus & Hrun).
  change (0 + k) with k in *. split; [done|]. by exists k, info.
Qed.

(** C2, amended. A call of [get_next_token] that returns a token leaves the
    token list as it was and leaves the cursor on the entry whose token it
    returns, [k] places (wrapping) past where it was, [k] being the number
    of exhausted entries it skipped; the cursor is unchanged exactly when
    the entry under it was not exhausted. *)
Theorem get_next_token_success_cursor
    (tm : t) (fuel : nat) (r : next_result) (tok : string) :
  get_next_token fuel tm = Some r →
  returned r = Return (Some tok) →
  tokens (after r) = tokens tm
  ∧ ∃ k info,
      k < length (tokens tm)
      ∧ probes r = S k
      ∧ (∀ j, j < k → ∃ e, entry_at tm j = Some e ∧ is_exhausted e = true)
      ∧ current_token_index (after r)
        = (current_token_index tm + k) mod length (tokens tm)
      ∧ tokens tm !! current_token_index (after r) = Some info
      ∧ token info = tok
      ∧ is_exhausted info = false
      ∧ (current_token_index (after r) = current_token_index tm ↔ k = 0)
      ∧ (k = 0 ↔ ∃ e, tokens tm !! current_token_index tm = Some e
                      ∧ is_exhausted e = false).
Proof.
  intros Hnext Hret.
  destruct (get_next_token_success tm fuel r tok Hnext Hret)
    as (Hc & k & info & Hk & -> & Hlook & Htok & Hus & Hrun).
  unfold entry_at in *. fields. split; [done|]. exists k, info.
  split_and!; try done.
  - by apply mod_offset_fixed.
  - split.
    + intros ->. exists info. split; [|done].
      by rewrite Nat.add_0_r, Nat.mod_small in Hlook.
    + intros (e & He & Hex). destruct k as [|k]; [done|].
      destruct (Hrun 0 ltac:(lia)) as (e' & He' & Hex').
      rewrite Nat.add_0_r, Nat.mod_small in He' by done. congruence.
Qed.

(** C2 amended, at the pool of the counterexample. *)
Lemma get_next_token_success_cursor_witness :
  tokens (Mk [TokenInfo "t1" (Some true); TokenInfo "t2" None] 1)
  = [TokenInfo "t1" (Some true); TokenInfo "t2" None]
  ∧ ∃ k info,
      k < 2 ∧ 2 = S k
      ∧ (∀ j, j < k →
           ∃ e, entry_at (Mk [TokenInfo "t1" (Some true); TokenInfo "t2" None] 0) j
                = Some e ∧ is_exhausted e = true)
      ∧ 1 = (0 + k) mod 2
      ∧ [TokenInfo "t1" (Some true); TokenInfo "t2" None] !! 1 = Some info
      ∧ token info = "t2"
      ∧ is_exhausted info = false
      ∧ (1 = 0 ↔ k = 0)
      ∧ (k = 0 ↔ ∃ e, [TokenInfo "t1" (Some true); TokenInfo "t2" None] !! 0
                      = Some e ∧ is_exhausted e = false).
Proof.
  exact (get_next_token_success_cursor
           (Mk [TokenInfo "t1" (Some true); TokenInfo "t2" None] 0) 2
           (NextResult (Return (Some "t2"))
              (Mk [TokenInfo "t1" (Some true); TokenInfo "t2" None] 1) 2)
           "t2" eq_refl eq_refl).
Defined.

(** C5. [mark_token_exhausted t] sets the flag of the first entry whose
    token is [t] and moves the cursor to the place after it, modulo the
    length of the pool; the other entries, that entry's token and the
    length of the pool are unchanged. When no entry has the token [t], the
    manager is unchanged. *)
Theorem mark_token_exhausted_first_match (tm : t) (tok : string) :
  (∀ i info,
     tokens tm !! i = Some info →
     token info = tok →
     (∀ j e, j < i → tokens tm !! j = Some e → token e ≠ tok) →
     mark_token_exhausted tok tm
     = Mk (<[i := TokenInfo tok (Some true)]> (tokens tm))
          ((i + 1) mod length (tokens tm))
     ∧ tokens (mark_token_exhausted tok tm) !! i = Some (TokenInfo tok (Some true))
     ∧ (∀ j, j ≠ i →
          tokens (mark_token_exhausted tok tm) !! j = tokens tm !! j)
     ∧ length (tokens (mark_token_exhausted tok tm)) = length (tokens tm))
  ∧ ((∀ e, e ∈ tokens tm → token e ≠ tok) →
     mark_token_exhausted tok tm = tm).
Proof.
  destruct tm as [l c]. unfold mark_token_exhausted. simpl.
  destruct (mark_loop_spec tok c [] l) as [Hfound Hnone]. simpl in *.
  split; [|done].
  intros i info Hlook Htok Hfirst.
  rewrite (Hfound i info Hlook Htok Hfirst).
  unfold set_exhausted. rewrite Htok. simpl.
  split_and!; [done| | |by rewrite length_insert].
  - apply list_lookup_insert_eq. by eapply lookup_lt_Some.
  - intros j Hj. by apply list_lookup_insert_ne.
Qed.

(** C5, on a pool in which the token occurs twice. *)
Lemma mark_token_exhausted_first_match_witness :
  mark_token_exhausted "b"
    (Mk [TokenInfo "a" None; TokenInfo "b" None; TokenInfo "b" None] 0)
  = Mk [TokenInfo "a" None; TokenInfo "b" (Some true); TokenInfo "b" None] 2
  ∧ mark_token_exhausted "z"
      (Mk [TokenInfo "a" None; TokenInfo "b" None; TokenInfo "b" None] 0)
    = Mk [TokenInfo "a" None; TokenInfo "b" None; TokenInfo "b" None] 0.
Proof.
  split.
  - refine (proj1 (proj1 (mark_token_exhausted_first_match
                     (Mk [TokenInfo "a" None; TokenInfo "b" None;
                          TokenInfo "b" None] 0) "b")
                   1 (TokenInfo "b" None) eq_refl eq_refl _)).
    intros j e Hj. assert (j = 0) as -> by lia.
    intros [= <-]. discriminate.
  - refine (proj2 (mark_token_exhausted_first_match
                     (Mk [TokenInfo "a" None; TokenInfo "b" None;
                          TokenInfo "b" None] 0) "z") _).
    intros e He. repeat (apply elem_of_cons in He as [->|He]; [discriminate|]).
    by apply elem_of_nil in He.
Defined.

(** C7 as stated fails: a non-empty pool can have its cursor behind its
    end, after a reload that read a shorter list. [reset_exhausted_status]
    leaves the cursor there, and the following [get_next_token] raises
    [IndexError] instead of returning a token. *)
Lemma reset_then_next_raises_behind_the_end :
  ∃ tm,
    rtc step (init (Some [TokenInfo "t1" None; TokenInfo "t2" None])) tm
    ∧ tokens tm ≠ []
    ∧ get_next_token 1 (reset_exhausted_status tm)
      = Some (NextResult (Raise IndexError) (reset_exhausted_status tm) 0)
    ∧ ∀ fuel r, get_next_token fuel (reset_exhausted_status tm) = Some r →
                returned r = Raise IndexError.
Proof.
  exists (Mk [TokenInfo "t1" None] 1). split_and!.
  - eapply rtc_l; [apply (step_mark "t1")|].
    eapply rtc_l; [apply (step_load (Some [TokenInfo "t1" None]))|].
    apply rtc_refl.
  - done.
  - reflexivity.
  - intros [|fuel] r; [done|]. by intros [= <-].
Qed.

(** C7, amended. [reset_exhausted_status] clears the flag of every entry,
    keeps every token and keeps the cursor; so on a non-empty pool whose
    cursor is a position, whatever the flags were, a following
    [get_next_token] returns a token (the one under the cursor), after one
    probe. *)
Theorem reset_then_next_returns_token (tm : t) :
  current_token_index (reset_exhausted_status tm) = current_token_index tm
  ∧ token <$> tokens (reset_exhausted_status tm) = token <$> tokens tm
  ∧ (∀ e, e ∈ tokens (reset_exhausted_status tm) → exhausted e = Some false)
  ∧ (tokens tm ≠ [] →
     cursor_ok tm →
     ∀ fuel, 0 < fuel →
       ∃ info,
         tokens tm !! current_token_index tm = Some info
         ∧ get_next_token fuel (reset_exhausted_status tm)
           = Some (NextResult (Return (Some (token info)))
                     (reset_exhausted_status tm) 1)).
Proof.
  destruct tm as [l c]. unfold reset_exhausted_status, cursor_ok. fields.
  split_and!.
  - done.
  - rewrite <- list_fmap_compose. by apply list_fmap_ext.
  - by intros e (e' & -> & _)%list_elem_of_fmap.
  - intros Hne Hok fuel Hfuel. specialize (Hok Hne).
    destruct (lookup_lt_is_Some_2 l c Hok) as [info Hinfo].
    exists info. split; [done|].
    unfold get_next_token. fields.
    destruct l as [|x l']; [done|]. rewrite fmap_cons.
    rewrite <- (fmap_cons (set_exhausted false) x l').
    set (l := x :: l') in *.
    destruct fuel as [|fuel]; [lia|]. cbn [scan]. fields.
    by rewrite list_lookup_fmap, Hinfo.
Qed.

(** C7 amended, on a pool whose entries are all exhausted. *)
Lemma reset_then_next_returns_token_witness :
  ∃ info,
    [TokenInfo "t1" (Some true); TokenInfo "t2" (Some true)] !! 1 = Some info
    ∧ get_next_token 1
        (reset_exhausted_status
           (Mk [TokenInfo "t1" (Some true); TokenInfo "t2" (Some true)] 1))
      = Some (NextResult (Return (Some (token info)))
                (reset_exhausted_status
                   (Mk [TokenInfo "t1" (Some true); TokenInfo "t2" (Some true)] 1))
                1).
Proof.
  refine (proj2 (proj2 (proj2 (reset_then_next_returns_token
            (Mk [TokenInfo "t1" (Some true); TokenInfo "t2" (Some true)] 1))))
          _ _ 1 _).
  - discriminate.
  - intros _. simpl. lia.
  - lia.
Defined.

(** The invariant of the manager: an empty pool has the cursor at 0, a
    non-empty one has it on a position. *)
Lemma init_cursor (file : option (list token_info)) :
  (tokens (init file) = [] ∧ current_token_index (init file) = 0)
  ∨ current_token_index (init file) < length (tokens (init file)).
Proof.
  unfold init, load_tokens. fields.
  destruct (default [] file) as [|x l]; [by left|right; simpl; lia].
Qed.

Lemma mark_loop_shape (tok : string) (i : nat) (todo : list token_info) (tm : t) :
  mark_loop tok i todo tm = tm
  ∨ (length (tokens (mark_loop tok i todo tm)) = length (tokens tm)
     ∧ (tokens tm ≠ [] →
        current_token_index (mark_loop tok i todo tm) < length (tokens tm))).
Proof.
  revert i. induction todo as [|x todo IH]; intros i; [by left|].
  cbn [mark_loop]. case_decide; [|apply IH].
  right. fields. split; [by rewrite length_insert|].
  intros Hne. apply Nat.mod_upper_bound. by destruct (tokens tm).
Qed.

Lemma step_keeping_cursor (tm tm' : t) :
  step_keeping tm tm' →
  (tokens tm = [] ∧ current_token_index tm = 0)
  ∨ current_token_index tm < length (tokens tm) →
  (tokens tm' = [] ∧ current_token_index tm' = 0)
  ∨ current_token_index tm' < length (tokens tm').
Proof.
  intros [Hstep Hlen] Hinv. destruct Hstep as [file tm|fuel tm r Hnext|tok tm|tm].
  - unfold load_tokens in *. fields.
    destruct Hinv as [[_ ->]|Hlt]; [|right; lia].
    destruct (default [] file); [by left|right; simpl; lia].
  - unfold get_next_token in Hnext.
    destruct (tokens tm) as [|x l] eqn:Hl.
    + injection Hnext as <-. fields. rewrite Hl. by destruct Hinv as [[_ ->]|?]; [left|right].
    + destruct Hinv as [[[=] _]|Hlt].
      destruct (scan_after _ _ _ _ _ Hnext) as [Htok Hcur].
      right. rewrite Htok. apply Hcur. by rewrite Hl.
  - unfold mark_token_exhausted in *.
    destruct (mark_loop_shape tok 0 (tokens tm) tm) as [->|[Hsame Hcur]]; [done|].
    destruct (decide (tokens tm = [])) as [Hnil|Hne].
    + by assert (mark_loop tok 0 (tokens tm) tm = tm) as -> by by rewrite Hnil.
    + right. rewrite Hsame. by apply Hcur.
  - unfold reset_exhausted_status. fields. rewrite length_fmap.
    destruct Hinv as [[-> ->]|?]; [by left|by right].
Qed.

Lemma scan_no_index_error (fuel s p : nat) (tm : t) (r : next_result) :
  current_token_index tm < length (tokens tm) →
  scan fuel s p tm = Some r →
  returned r ≠ Raise IndexError.
Proof.
  revert p tm. induction fuel as [|fuel IH]; intros p tm Hlt Hscan; [done|].
  cbn [scan] in Hscan.
  destruct (lookup_lt_is_Some_2 _ _ Hlt) as [info Hinfo].
  rewrite Hinfo in Hscan. destruct (is_exhausted info); cbn [negb] in Hscan.
  - case_decide.
    + by injection Hscan as <-.
    + eapply IH; [|done]. unfold set_index. fields.
      apply Nat.mod_upper_bound. lia.
  - by injection Hscan as <-.
Qed.

(** C9 as stated fails: a reload that reads a shorter list leaves the cursor
    behind the end of a non-empty pool, and the next call indexes out of
    range. *)
Lemma reload_leaves_cursor_out_of_range :
  ∃ tm,
    rtc step
      (init (Some [TokenInfo "a" None; TokenInfo "b" None; TokenInfo "c" None]))
      tm
    ∧ tokens tm ≠ []
    ∧ ¬ current_token_index tm < length (tokens tm)
    ∧ get_next_token 1 tm = Some (NextResult (Raise IndexError) tm 0).
Proof.
  exists (Mk [TokenInfo "a" None] 2). split_and!.
  - eapply rtc_l; [apply (step_mark "b")|].
    eapply rtc_l; [apply (step_load (Some [TokenInfo "a" None]))|].
    apply rtc_refl.
  - done.
  - simpl. lia.
  - reflexivity.
Qed.

(** C9, amended. Starting from a manager as its constructor leaves it, after
    any sequence of [get_next_token], [mark_token_exhausted],
    [reset_exhausted_status] and of reloads that read at least as many
    entries as the pool holds, a non-empty pool has its cursor on a
    position, so [get_next_token] never raises [IndexError] and returns
    within [length] iterations; on an empty pool it returns [None] without
    reading an entry. *)
Theorem cursor_stays_in_range (file : option (list token_info)) (tm : t) :
  rtc step_keeping (init file) tm →
  (tokens tm ≠ [] → current_token_index tm < length (tokens tm))
  ∧ (∀ fuel r, get_next_token fuel tm = Some r →
       returned r ≠ Raise IndexError)
  ∧ (∀ fuel, length (tokens tm) ≤ fuel →
       ∃ r v, get_next_token fuel tm = Some r ∧ returned r = Return v)
  ∧ (tokens tm = [] →
     ∀ fuel, get_next_token fuel tm = Some (NextResult (Return None) tm 0)).
Proof.
  intros Hreach.
  assert (Hinv : (tokens tm = [] ∧ current_token_index tm = 0)
                 ∨ current_token_index tm < length (tokens tm)).
  { revert tm Hreach. apply rtc_ind_r.
    - apply init_cursor.
    - intros tm1 tm2 _ Hstep IH. by eapply step_keeping_cursor. }
  assert (Hok : cursor_ok tm).
  { intros Hne. by destruct Hinv as [[? _]|?]. }
  split_and!.
  - done.
  - intros fuel r Hnext Hraise. unfold get_next_token in Hnext.
    destruct (tokens tm) as [|x l] eqn:Hl.
    { injection Hnext as <-. discriminate Hraise. }
    eapply scan_no_index_error; [|done..]. fields. apply Hok. by rewrite Hl.
  - intros fuel Hfuel.
    destruct (first_usable_or_exhausted tm Hok)
      as [(k & info & Hk & Hrun & Hlook & Hus)|Hexh].
    + eexists _, _. split; [by apply (get_next_token_found tm fuel k info)|done].
    + destruct (decide (tokens tm = [])) as [Hnil|Hne].
      * eexists _, _. split; [by apply get_next_token_empty|done].
      * eexists _, _. split; [by apply get_next_token_all_exhausted|done].
  - intros Hempty fuel. unfold get_next_token. by rewrite Hempty.
Qed.

(** C9 amended, after marking the second of three tokens and reloading the
    same file. *)
Lemma cursor_stays_in_range_witness :
  (tokens (Mk [TokenInfo "a" None; TokenInfo "b" None; TokenInfo "c" None] 2) ≠ []
   → 2 < 3)
  ∧ ∃ r v,
      get_next_token 3
        (Mk [TokenInfo "a" None; TokenInfo "b" None; TokenInfo "c" None] 2)
      = Some r
      ∧ returned r = Return v.
Proof.
  pose proof (cursor_stays_in_range
    (Some [TokenInfo "a" None; TokenInfo "b" None; TokenInfo "c" None])
    (Mk [TokenInfo "a" None; TokenInfo "b" None; TokenInfo "c" None] 2)) as H.
  destruct H as (Hpos & _ & Hret & _).
  - eapply rtc_l.
    { split; [apply (step_mark "b")|]. simpl. lia. }
    eapply rtc_l.
    { split; [apply (step_load (Some [TokenInfo "a" None; TokenInfo "b" None;
                                       TokenInfo "c" None]))|]. simpl. lia. }
    apply rtc_refl.
  - split; [exact Hpos|]. apply (Hret 3). simpl. lia.
Defined.

(** ** The loop of [get_next_token] always finishes *)

(** One unit of fuel per entry is enough, whatever the cursor. *)
Lemma next_token_returns (tm : t) (fuel : nat) :
  length (tokens tm) ≤ fuel →
  get_next_token fuel tm = Some (next_token tm).
Proof.
  revert fuel.
  assert (Hsame : ∃ r, ∀ fuel, length (tokens tm) ≤ fuel →
                         get_next_token fuel tm = Some r).
  { destruct (decide (tokens tm = [])) as [Hnil|Hne].
    { eexists. intros fuel _. unfold get_next_token. by rewrite Hnil. }
    destruct (decide (current_token_index tm < length (tokens tm))) as [Hlt|Hge].
    - assert (Hok : cursor_ok tm) by (by intros _).
      destruct (first_usable_or_exhausted tm Hok)
        as [(k & info & Hk & Hrun & Hlook & Hus)|Hexh].
      + eexists. intros fuel Hfuel.
        by apply (get_next_token_found tm fuel k info).
      + eexists. intros fuel Hfuel.
        by apply get_next_token_all_exhausted.
    - exists (NextResult (Raise IndexError) tm 0). intros fuel Hfuel.
      unfold get_next_token. destruct (tokens tm) as [|x l] eqn:Hl; [done|].
      rewrite <- Hl in *. destruct fuel as [|fuel].
      { rewrite Hl in Hfuel. simpl in Hfuel. lia. }
      cbn [scan]. by rewrite lookup_ge_None_2 by lia. }
  destruct Hsame as [r Hr]. intros fuel Hfuel. unfold next_token.
  by rewrite (Hr (length (tokens tm))), (Hr fuel).
Qed.

(** [get_next_token] never changes the token list. *)
Lemma next_token_tokens (tm : t) :
  tokens (after (next_token tm)) = tokens tm.
Proof.
  pose proof (next_token_returns tm (length (tokens tm)) ltac:(done)) as Hnext.
  unfold get_next_token in Hnext. destruct (tokens tm) as [|x l] eqn:Hl.
  - injection Hnext as <-. done.
  - rewrite <- Hl in *. by destruct (scan_after _ _ _ _ _ Hnext).
Qed.

(** ** Counting the usable entries *)

Lemma next_token_success (tm : t) (tok : string) :
  returned (next_token tm) = Return (Some tok) →
  ∃ i info,
    tokens tm !! i = Some info ∧ token info = tok ∧ is_exhausted info = false
    ∧ after (next_token tm) = Mk (tokens tm) i.
Proof.
  intros Hret.
  pose proof (next_token_returns tm (length (tokens tm)) ltac:(done)) as Hnext.
  destruct (get_next_token_success tm _ _ tok Hnext Hret)
    as (_ & k & info & _ & -> & Hlook & Hinfo & Hus & _).
  by exists ((current_token_index tm + k) mod length (tokens tm)), info.
Qed.

Lemma first_match_or_none (l : list token_info) (tok : string) :
  (∃ i info, l !! i = Some info ∧ token info = tok
     ∧ ∀ j e, j < i → l !! j = Some e → token e ≠ tok)
  ∨ (∀ e, e ∈ l → token e ≠ tok).
Proof.
  induction l as [|x l IH].
  - right. by intros e ?%elem_of_nil.
  - destruct (decide (token x = tok)) as [Hx|Hx].
    + left. exists 0, x. split_and!; [done..|]. intros j e Hj. lia.
    + destruct IH as [(i & info & Hlook & Htok & Hfirst)|Hnone].
      * left. exists (S i), info. split_and!; [done..|].
        intros [|j] e Hj; simpl; [by intros [= <-]|].
        apply Hfirst. lia.
      * right. intros e [->|He]%elem_of_cons; [done|by apply Hnone].
Qed.

(** [mark_token_exhausted] either changes nothing or flags its first match. *)
Lemma mark_shape (tm : t) (tok : string) :
  mark_token_exhausted tok tm = tm
  ∨ ∃ i info,
      tokens tm !! i = Some info ∧ token info = tok
      ∧ (∀ j e, j < i → tokens tm !! j = Some e → token e ≠ tok)
      ∧ mark_token_exhausted tok tm
        = Mk (<[i := TokenInfo tok (Some true)]> (tokens tm))
             ((i + 1) mod length (tokens tm)).
Proof.
  destruct tm as [l c]. unfold mark_token_exhausted. fields.
  destruct (mark_loop_spec tok c [] l) as [Hfound Hnone]. simpl in Hfound, Hnone.
  destruct (first_match_or_none l tok) as [(i & info & Hlook & Htok & Hfirst)|Hno].
  - right. exists i, info. split_and!; [done..|].
    rewrite (Hfound i info Hlook Htok Hfirst). unfold set_exhausted.
    by rewrite Htok.
  - left. by apply Hnone.
Qed.

Lemma usable_flag (l : list token_info) (i : nat) (e' : token_info) :
  is_exhausted e' = true →
  length (filter (λ e, is_exhausted e = false) (<[i := e']> l))
  ≤ length (filter (λ e, is_exhausted e = false) l).
Proof.
  intros He'. revert i. induction l as [|x l IH]; intros i; [done|].
  destruct i as [|i]; simpl.
  - rewrite filter_cons_False by congruence.
    rewrite filter_cons. case_decide; simpl; lia.
  - rewrite !filter_cons. specialize (IH i). case_decide; simpl; lia.
Qed.

Lemma usable_flag_usable (l : list token_info) (i : nat) (info e' : token_info) :
  l !! i = Some info →
  is_exhausted info = false →
  is_exhausted e' = true →
  S (length (filter (λ e, is_exhausted e = false) (<[i := e']> l)))
  = length (filter (λ e, is_exhausted e = false) l).
Proof.
  intros Hlook Hus He'. revert i Hlook. induction l as [|x l IH]; intros i Hlook;
    [done|].
  destruct i as [|i]; simpl in *.
  - injection Hlook as ->. rewrite filter_cons_False by congruence.
    by rewrite filter_cons_True.
  - rewrite !filter_cons. specialize (IH i Hlook). case_decide; simpl; lia.
Qed.

Lemma tokens_flag (l : list token_info) (i : nat) (info : token_info) :
  l !! i = Some info →
  token <$> <[i := TokenInfo (token info) (Some true)]> l = token <$> l.
Proof.
  intros Hlook. rewrite list_fmap_insert. simpl.
  apply list_insert_id. by rewrite list_lookup_fmap, Hlook.
Qed.

(** Marking keeps the tokens and cannot make an entry usable. *)
Lemma mark_keeps (tm : t) (tok : string) :
  token <$> tokens (mark_token_exhausted tok tm) = token <$> tokens tm
  ∧ usable (mark_token_exhausted tok tm) ≤ usable tm.
Proof.
  destruct (mark_shape tm tok) as [->|(i & info & Hlook & <- & _ & ->)]; [done|].
  unfold usable. fields. split.
  - by apply tokens_flag.
  - by apply usable_flag.
Qed.

(** In a pool without repeated tokens, marking the token of a usable entry
    uses that entry up. *)
Lemma mark_usable (tm : t) (i : nat) (info : token_info) :
  NoDup (token <$> tokens tm) →
  tokens tm !! i = Some info →
  is_exhausted info = false →
  S (usable (mark_token_exhausted (token info) tm)) = usable tm.
Proof.
  intros Hnodup Hlook Hus.
  destruct (mark_shape tm (token info))
    as [Hsame|(i' & info' & Hlook' & Htok & _ & ->)].
  - exfalso. destruct tm as [l c]. unfold mark_token_exhausted in Hsame.
    destruct (mark_loop_spec (token info) c [] l) as [Hfound _].
    destruct (first_match_or_none l (token info))
      as [(j & e & Hj & Hjt & Hfirst)|Hno].
    + simpl in Hfound. fields. rewrite (Hfound j e Hj Hjt Hfirst) in Hsame.
      injection Hsame as Hl _.
      apply (f_equal (λ l, is_exhausted <$> l !! j)) in Hl.
      rewrite list_lookup_insert_eq, Hj in Hl by by eapply lookup_lt_Some.
      simpl in Hl. injection Hl as Hl.
      assert (j = i) as ->.
      { eapply (NoDup_lookup _ _ _ _ Hnodup); fields;
          rewrite list_lookup_fmap; [by rewrite Hj; simpl; rewrite Hjt|by rewrite Hlook]. }
      unfold is_exhausted at 1 in Hl. simpl in Hl. congruence.
    + apply (Hno info); [|done]. fields. by eapply list_elem_of_lookup_2.
  - assert (i' = i) as ->.
    { eapply (NoDup_lookup _ _ _ _ Hnodup);
        rewrite list_lookup_fmap; [by rewrite Hlook'; simpl; rewrite Htok|by rewrite Hlook]. }
    unfold usable. fields. by apply (usable_flag_usable _ _ info).
Qed.

Lemma usable_le_length (tm : t) : usable tm ≤ length (tokens tm).
Proof. apply length_filter. Qed.

Lemma usable_pos (tm : t) (i : nat) (info : token_info) :
  tokens tm !! i = Some info → is_exhausted info = false → 0 < usable tm.
Proof.
  intros Hlook Hus. unfold usable.
  assert (Hin : info ∈ filter (λ e, is_exhausted e = false) (tokens tm)).
  { apply list_elem_of_filter. split; [done|]. by eapply list_elem_of_lookup_2. }
  destruct (filter _ (tokens tm)); [by apply elem_of_nil in Hin|simpl; lia].
Qed.

(** On a manager whose cursor is a position, the call returns a token or
    [None]. *)
Lemma next_token_return (tm : t) :
  cursor_ok tm → ∃ v, returned (next_token tm) = Return v.
Proof.
  intros Hok.
  pose proof (next_token_returns tm (length (tokens tm)) ltac:(done)) as Hnext.
  destruct (first_usable_or_exhausted tm Hok)
    as [(k & info & Hk & Hrun & Hlook & Hus)|Hexh].
  - rewrite (get_next_token_found tm _ k info) in Hnext by done.
    injection Hnext as <-. by eexists.
  - destruct (decide (tokens tm = [])) as [Hnil|Hne].
    + rewrite get_next_token_empty in Hnext by done.
      injection Hnext as <-. by eexists.
    + rewrite get_next_token_all_exhausted in Hnext by done.
      injection Hnext as <-. by eexists.
Qed.

End TokenManagerSpec.

(** * Properties of the text functions *)

Module TextSpec.
Import Text.

Lemma strip_one_app (ws : list (list ascii)) (s rest : list ascii) :
  strip_one ws s = Some rest → ∃ w, w ∈ ws ∧ s = w ++ rest.
Proof.
  unfold strip_one. intros Hone.
  destruct (List.find _ ws) as [w|] eqn:Hfind; [|done].
  injection Hone as <-. apply List.find_some in Hfind as [Hin Hpre].
  exists w. split; [by apply list_elem_of_In|].
  apply bool_decide_eq_true in Hpre as [k ->].
  by rewrite drop_app_length.
Qed.

(** Stripping removes only bytes of the encodings it is given. *)
Lemma lstrip_go_app (fuel : nat) (ws : list (list ascii)) (s : list ascii) :
  ∃ pre, s = pre ++ lstrip_go fuel ws s
         ∧ ∀ a, a ∈ pre → ∃ w, w ∈ ws ∧ a ∈ w.
Proof.
  revert s. induction fuel as [|fuel IH]; intros s; simpl.
  { exists []. split; [done|]. by intros a ?%elem_of_nil. }
  destruct (strip_one ws s) as [rest|] eqn:Hone.
  - apply strip_one_app in Hone as (w & Hw & ->).
    destruct (IH rest) as (pre & Hrest & Hpre).
    exists (w ++ pre). split.
    + by rewrite <- app_assoc, <- Hrest.
    + intros a [Ha|Ha]%elem_of_app; [by exists w|by apply Hpre].
  - exists []. split; [done|]. by intros a ?%elem_of_nil.
Qed.

Lemma text_nil (l : list ascii) : text l = EmptyString → l = [].
Proof. by destruct l. Qed.

(** A text that strips to nothing holds only bytes of white space. *)
Lemma strip_empty (s : string) (a : ascii) :
  strip s = EmptyString → a ∈ chars s → a ∈ mjoin whitespace.
Proof.
  unfold strip, rstrip, lstrip. intros Hstrip%text_nil Ha.
  destruct (lstrip_go_app (length (chars s)) whitespace (chars s))
    as (pre & Hs & Hpre).
  set (rest := lstrip_go (length (chars s)) whitespace (chars s)) in *.
  destruct (lstrip_go_app (length rest) (reverse <$> whitespace) (reverse rest))
    as (suf & Hrest & Hsuf).
  apply (f_equal reverse) in Hstrip. rewrite reverse_involutive in Hstrip.
  rewrite Hstrip, app_nil_r in Hrest. cbn [reverse rev_append] in Hrest.
  rewrite Hs in Ha. apply elem_of_app in Ha as [Ha|Ha].
  - destruct (Hpre a Ha) as (w & Hw & Haw).
    apply list_elem_of_join. by exists w.
  - rewrite <- elem_of_reverse, Hrest in Ha.
    destruct (Hsuf a Ha) as (w & (w' & -> & Hw')%list_elem_of_fmap & Haw).
    rewrite elem_of_reverse in Haw. apply list_elem_of_join. by exists w'.
Qed.

Lemma split_newline_nonempty (s : string) : split_newline s ≠ [].
Proof.
  destruct s as [|a r]; simpl; [done|].
  case_decide; [done|]. by destruct (split_newline r).
Qed.

(** Every byte of a line is a byte of the text that was split. *)
Lemma split_newline_chars (s line : string) (a : ascii) :
  line ∈ split_newline s → a ∈ chars line → a ∈ chars s.
Proof.
  revert line. induction s as [|b r IH]; intros line; simpl.
  - intros ->%list_elem_of_singleton. by intros ?%elem_of_nil.
  - case_decide as Hnl.
    + intros [->|Hin]%elem_of_cons Ha; [by apply elem_of_nil in Ha|].
      right. by eapply IH.
    + pose proof (split_newline_nonempty r) as Hne.
      destruct (split_newline r) as [|l ls]; [done|].
      intros [->|Hin]%elem_of_cons Ha.
      * cbn in Ha. apply elem_of_cons in Ha as [->|Ha]; [by left|].
        right. apply (IH l); [by left|done].
      * right. apply (IH line); [by right|done].
Qed.

Lemma startswith_data (line : string) :
  startswith "data: " line = true → "d"%char ∈ chars line.
Proof.
  destruct line as [|a r]; [done|]. unfold startswith.
  cbn -[Ascii.ascii_dec].
  destruct (Ascii.ascii_dec "d" a) as [<-|]; [|done]. intros _. by left.
Qed.

(** A chunk with a line that starts with the data prefix is not blank. *)
Lemma data_line_not_blank (s line : string) :
  line ∈ split_newline s →
  startswith "data: " line = true →
  strip s ≠ EmptyString.
Proof.
  intros Hline Hdata%startswith_data Hblank.
  pose proof (strip_empty s _ Hblank (split_newline_chars _ _ _ Hline Hdata)) as Hd.
  assert (Hno : bool_decide ("d"%char ∈ mjoin whitespace) = false)
    by by vm_compute.
  by apply bool_decide_eq_false in Hno.
Qed.

End TextSpec.

(** * Properties of the client *)

Module ClaudeClientSpec.
Import Text Json ClaudeClient.

Section Decoding.

Context (json_loads : string → result value).


Lemma decode_lines_app (c : t) (l1 l2 : list string) :
  decode_lines json_loads c (l1 ++ l2)
  = match decode_lines json_loads c l1 with
    | (evs, Continue) =>
        let '(evs', f) := decode_lines json_loads c l2 in (evs ++ evs', f)
    | stopped => stopped
    end.
Proof.
  induction l1 as [|line l1 IH]; simpl.
  - by destruct (decode_lines json_loads c l2).
  - destruct (decode_line json_loads c line) as [evs [| |e]]; [|done..].
    rewrite IH. destruct (decode_lines json_loads c l1) as [evs1 [| |e]]; [|done..].
    destruct (decode_lines json_loads c l2) as [evs2 f]. by rewrite app_assoc.
Qed.

Lemma decode_chunks_app (c : t) (cs1 cs2 : list (list Byte.byte)) :
  decode_chunks json_loads c (cs1 ++ cs2)
  = match decode_chunks json_loads c cs1 with
    | (evs, Continue) =>
        let '(evs', f) := decode_chunks json_loads c cs2 in (evs ++ evs', f)
    | stopped => stopped
    end.
Proof.
  induction cs1 as [|chunk cs1 IH]; simpl.
  - by destruct (decode_chunks json_loads c cs2).
  - destruct (decode_chunk json_loads c chunk) as [evs [| |e]]; [|done..].
    rewrite IH. destruct (decode_chunks json_loads c cs1) as [evs1 [| |e]]; [|done..].
    destruct (decode_chunks json_loads c cs2) as [evs2 f]. by rewrite app_assoc.
Qed.

Lemma decode_line_done (c : t) (line : string) :
  startswith "data: " line = true →
  strip (drop_chars 6 line) = "[DONE]" →
  decode_line json_loads c line = ([], Returned).
Proof.
  intros Hdata Hdone. unfold decode_line.
  by rewrite Hdata, decide_True.
Qed.


(** A chunk with a data line is decoded line by line. *)
Lemma decode_chunk_lines (c : t) (chunk : list Byte.byte) (chunk_str line : string) :
  decode_utf8 chunk = Some chunk_str →
  line ∈ split_newline chunk_str →
  startswith "data: " line = true →
  decode_chunk json_loads c chunk = decode_lines json_loads c (split_newline chunk_str).
Proof.
  intros Hutf Hline Hdata. unfold decode_chunk. rewrite Hutf.
  rewrite decide_False; [done|]. by eapply TextSpec.data_line_not_blank.
Qed.

End Decoding.

Section Streaming.

Context (json_loads : string → result value).
Context (server : nat → request → response).

(** C6. When the decoder reaches a line that starts with the data prefix
    and whose payload, stripped, is [[DONE]], the output sequence ends there:
    the events are those decoded before the line, whatever lines and chunks
    follow, and the generator returns normally. *)
Theorem done_line_ends_stream
    (c : t) (before after : list (list Byte.byte)) (chunk : list Byte.byte)
    (chunk_str line : string) (l1 l2 : list string) (evs1 evs2 : list event) :
  decode_utf8 chunk = Some chunk_str →
  split_newline chunk_str = l1 ++ line :: l2 →
  startswith "data: " line = true →
  strip (drop_chars 6 line) = "[DONE]" →
  decode_chunks json_loads c before = (evs1, Continue) →
  decode_lines json_loads c l1 = (evs2, Continue) →
  decode_chunks json_loads c (before ++ chunk :: after) = (evs1 ++ evs2, Returned)
  ∧ ∀ fuel c0 msgs mdl req,
      build_request c0 msgs mdl = Return req →
      ended (make_request json_loads server fuel 0 c0 (headers req) (data req))
      = Some (Streamed (before ++ chunk :: after)) →
      client_after (make_request json_loads server fuel 0 c0 (headers req) (data req))
      = c →
      events (stream_chat json_loads server fuel c0 msgs mdl) = evs1 ++ evs2
      ∧ outcome (stream_chat json_loads server fuel c0 msgs mdl) = Some (Return tt).
Proof.
  intros Hutf Hsplit Hdata Hdone Hbefore Hl1.
  assert (Hchunks : decode_chunks json_loads c (before ++ chunk :: after)
                    = (evs1 ++ evs2, Returned)).
  { rewrite decode_chunks_app, Hbefore. cbn [decode_chunks].
    rewrite (decode_chunk_lines json_loads c chunk chunk_str line Hutf);
      [|rewrite Hsplit; apply elem_of_app; right; by left|done].
    rewrite Hsplit, decode_lines_app, Hl1. cbn [decode_lines].
    by rewrite decode_line_done, app_nil_r. }
  split; [done|].
  intros fuel c0 msgs mdl req Hreq Hended Hclient. unfold stream_chat.
  rewrite Hreq, Hended, Hclient, Hchunks. done.
Qed.


End Streaming.

(** C6, on a chunk whose sentinel line has a decodable line before it and
    one after it, with a further chunk behind. *)
Lemma done_line_ends_stream_witness :
  decode_chunks JsonText.loads Scenario.client
    ([] ++ Scenario.bytes
             (Scenario.line_hi +:+ Scenario.nl +:+ Scenario.line_done
              +:+ Scenario.nl +:+ Scenario.line_more)
        :: [Scenario.bytes Scenario.line_more])
  = ([] ++ [("answer", JStr "Hi")], Returned).
Proof.
  refine (proj1 (done_line_ends_stream JsonText.loads Scenario.no_quota
                   Scenario.client [] [Scenario.bytes Scenario.line_more]
                   _ _ Scenario.line_done [Scenario.line_hi]
                   [Scenario.line_more] [] [("answer", JStr "Hi")]
                   _ _ _ _ _ _)).
  - by vm_compute.
  - by vm_compute.
  - by vm_compute.
  - by vm_compute.
  - by vm_compute.
  - by vm_compute.
Defined.


Section Retry.

Context (json_loads : string → result value).
Context (server : nat → request → response).

(** One turn of the loop on a response that carries the quota code. *)
Lemma make_request_quota (fuel n : nat) (c : t)
    (hs : gmap string (option string)) (d : body) (error_text : string) :
  server n (Request hs d) = HttpError error_text →
  carries_quota_code json_loads error_text →
  make_request json_loads server (S fuel) n c hs d
  = let r := TokenManager.next_token (mark_active c) in
    let c1 := set_token_manager (TokenManager.after r) c in
    match TokenManager.returned r with
    | Raise _ => Run [Request hs d] c1 (Some (Ended RequestRaised))
    | Return None => Run [Request hs d] c1 (Some (Ended NoMoreTokens))
    | Return (Some next_token) =>
        if negb (truthy_str (Some next_token)) then
          Run [Request hs d] c1 (Some (Ended NoMoreTokens))
        else
          posted (Request hs d)
            (make_request json_loads server fuel (S n)
               (set_api_key (Some next_token) c1)
               (update_headers c hs next_token) d)
    end.
Proof.
  intros Hserver (error_data & error_code & Hjson & Hcode & Hquota).
  cbn [make_request]. by rewrite Hserver, Hjson, Hcode, Hquota.
Qed.

(** Every turn of the loop posts the request it was given, first. *)
Lemma make_request_sent (fuel n : nat) (c : t)
    (hs : gmap string (option string)) (d : body) :
  ∃ rest, sent (make_request json_loads server (S fuel) n c hs d)
          = Request hs d :: rest.
Proof.
  cbn [make_request].
  destruct (server n (Request hs d)) as [chunks|error_text|]; [by eexists| |by eexists].
  destruct (json_loads error_text) as [error_data|[]]; [|by eexists..].
  destruct (get "error" (JDict []) error_data ≫= get "code" JNull)
    as [error_code|e]; [|by eexists].
  destruct (eq_str error_code "insufficient_user_quota"); [|by eexists].
  destruct (TokenManager.returned _) as [[tok|]|e]; [|by eexists..].
  destruct (negb (truthy_str (Some tok))); by eexists.
Qed.

(** When [_make_request] gives up, [stream_chat] yields nothing and returns. *)
Lemma stream_chat_ended (fuel : nat) (c0 : t) (msgs : list value) (mdl : string)
    (req : request) (why : failure) :
  build_request c0 msgs mdl = Return req →
  ended (make_request json_loads server fuel 0 c0 (headers req) (data req))
  = Some (Ended why) →
  events (stream_chat json_loads server fuel c0 msgs mdl) = []
  ∧ outcome (stream_chat json_loads server fuel c0 msgs mdl) = Some (Return tt).
Proof.
  intros Hreq Hended. unfold stream_chat. by rewrite Hreq, Hended.
Qed.

Lemma update_headers_lookup (c : t) (hs : gmap string (option string))
    (tok : string) :
  (provider c = "anthropic" →
     update_headers c hs tok !! "x-api-key" = Some (Some tok)
     ∧ ∀ k, k ≠ "x-api-key" → update_headers c hs tok !! k = hs !! k)
  ∧ (provider c ≠ "anthropic" →
     update_headers c hs tok !! "Authorization" = Some (Some ("Bearer " +:+ tok))
     ∧ ∀ k, k ≠ "Authorization" → update_headers c hs tok !! k = hs !! k).
Proof.
  unfold update_headers. split; intros Hp.
  - rewrite decide_True by done. split; [by rewrite lookup_insert_eq|].
    intros k Hk. by rewrite lookup_insert_ne.
  - rewrite decide_False by done. split; [by rewrite lookup_insert_eq|].
    intros k Hk. by rewrite lookup_insert_ne.
Qed.

(** What marking the active credential leaves in the pool after the next
    token was fetched. *)
Lemma mark_active_flags (c : t) (k : string) (i : nat)
    (info : TokenManager.token_info) :
  api_key c = Some k →
  TokenManager.tokens (token_manager c) !! i = Some info →
  TokenManager.token info = k →
  (∀ j e, j < i → TokenManager.tokens (token_manager c) !! j = Some e →
          TokenManager.token e ≠ k) →
  TokenManager.tokens (TokenManager.after (TokenManager.next_token (mark_active c)))
    !! i
  = Some (TokenManager.TokenInfo k (Some true)).
Proof.
  intros Hkey Hlook Htok Hfirst.
  rewrite TokenManagerSpec.next_token_tokens. unfold mark_active. rewrite Hkey.
  destruct (token_manager c) as [l cur]. unfold TokenManager.mark_token_exhausted.
  destruct (TokenManagerSpec.mark_loop_spec k cur [] l) as [Hfound _].
  simpl in Hfound |- *. rewrite (Hfound i info Hlook Htok Hfirst).
  cbn [TokenManager.tokens]. unfold TokenManager.set_exhausted. rewrite Htok.
  apply list_lookup_insert_eq. by eapply lookup_lt_Some.
Qed.

(** C4. On a non-success response that carries the quota code, the adapter
    marks the active credential in the pool and fetches the next token.
    When there is one, it becomes the active credential, the header of the
    provider ([x-api-key] for the native one, [Authorization: Bearer] for
    the others) is set to it, the other headers and the body are kept, and
    the next request, the only one this rotation causes, is posted with
    them; nothing is raised. When there is none, the loop ends there, and a
    [stream_chat] whose request loop ends so yields no event and returns. *)
Theorem quota_error_rotates_credential (fuel n : nat) (c : t)
    (hs : gmap string (option string)) (d : body) (error_text : string) :
  server n (Request hs d) = HttpError error_text →
  carries_quota_code json_loads error_text →
  (∀ tok,
     TokenManager.returned (TokenManager.next_token (mark_active c))
     = Return (Some tok) →
     tok ≠ EmptyString →
     let c2 :=
       set_api_key (Some tok)
         (set_token_manager
            (TokenManager.after (TokenManager.next_token (mark_active c))) c) in
     let hs' := update_headers c hs tok in
     make_request json_loads server (S fuel) n c hs d
     = posted (Request hs d) (make_request json_loads server fuel (S n) c2 hs' d)
     ∧ (0 < fuel →
        ∃ rest, sent (make_request json_loads server (S fuel) n c hs d)
                = Request hs d :: Request hs' d :: rest)
     ∧ api_key c2 = Some tok
     ∧ (provider c = "anthropic" →
        hs' !! "x-api-key" = Some (Some tok)
        ∧ ∀ k, k ≠ "x-api-key" → hs' !! k = hs !! k)
     ∧ (provider c ≠ "anthropic" →
        hs' !! "Authorization" = Some (Some ("Bearer " +:+ tok))
        ∧ ∀ k, k ≠ "Authorization" → hs' !! k = hs !! k)
     ∧ (∀ k i info,
          api_key c = Some k →
          TokenManager.tokens (token_manager c) !! i = Some info →
          TokenManager.token info = k →
          (∀ j e, j < i →
                  TokenManager.tokens (token_manager c) !! j = Some e →
                  TokenManager.token e ≠ k) →
          TokenManager.tokens (token_manager c2) !! i
          = Some (TokenManager.TokenInfo k (Some true))))
  ∧ (TokenManager.returned (TokenManager.next_token (mark_active c)) = Return None
     ∨ TokenManager.returned (TokenManager.next_token (mark_active c))
       = Return (Some EmptyString) →
     make_request json_loads server (S fuel) n c hs d
     = Run [Request hs d]
         (set_token_manager
            (TokenManager.after (TokenManager.next_token (mark_active c))) c)
         (Some (Ended NoMoreTokens)))
  ∧ (∀ fuel' c0 msgs mdl req,
       build_request c0 msgs mdl = Return req →
       ended (make_request json_loads server fuel' 0 c0 (headers req) (data req))
       = Some (Ended NoMoreTokens) →
       events (stream_chat json_loads server fuel' c0 msgs mdl) = []
       ∧ outcome (stream_chat json_loads server fuel' c0 msgs mdl)
         = Some (Return tt)).
Proof.
  intros Hserver Hquota.
  pose proof (make_request_quota fuel n c hs d error_text Hserver Hquota) as Hturn.
  cbv zeta in Hturn. split_and!.
  - intros tok Hret Htok c2 hs'. rewrite Hret in Hturn.
    assert (Htruthy : negb (truthy_str (Some tok)) = false).
    { unfold truthy_str. by rewrite bool_decide_eq_false_2. }
    rewrite Htruthy in Hturn. fold c2 hs' in Hturn.
    destruct (update_headers_lookup c hs tok) as [Hnative Hother].
    split_and!; try done.
    + intros Hfuel. destruct fuel as [|fuel]; [lia|]. rewrite Hturn.
      destruct (make_request_sent fuel (S n) c2 hs' d) as [rest Hrest].
      exists rest. cbn [posted sent]. by rewrite Hrest.
    + intros k i info. apply mark_active_flags.
  - intros [Hret|Hret]; by rewrite Hret in Hturn.
  - intros fuel' c0 msgs mdl req. apply stream_chat_ended.
Qed.

End Retry.

Section Termination.

Context (json_loads : string → result value).
Context (server : nat → request → response).

(** A turn of the loop either ends the run after its request, or rotates to
    a token that [get_next_token] just returned and goes on. *)
Lemma make_request_turn (fuel n : nat) (c : t)
    (hs : gmap string (option string)) (d : body) :
  (∃ c' e, make_request json_loads server (S fuel) n c hs d
           = Run [Request hs d] c' (Some e))
  ∨ (∃ tok,
       TokenManager.returned (TokenManager.next_token (mark_active c))
       = Return (Some tok)
       ∧ make_request json_loads server (S fuel) n c hs d
         = posted (Request hs d)
             (make_request json_loads server fuel (S n)
                (set_api_key (Some tok)
                   (set_token_manager
                      (TokenManager.after
                         (TokenManager.next_token (mark_active c))) c))
                (update_headers c hs tok) d)).
Proof.
  cbn [make_request].
  destruct (server n (Request hs d)) as [chunks|error_text|];
    [left; by eexists _, _| |left; by eexists _, _].
  destruct (json_loads error_text) as [error_data|[]];
    [|left; by eexists _, _..].
  destruct (get "error" (JDict []) error_data ≫= get "code" JNull)
    as [error_code|e]; [|left; by eexists _, _].
  destruct (eq_str error_code "insufficient_user_quota");
    [|left; by eexists _, _].
  destruct (TokenManager.returned _) as [[tok|]|e] eqn:Hret;
    [|left; by eexists _, _..].
  destruct (negb (truthy_str (Some tok))); [left; by eexists _, _|].
  right. by exists tok.
Qed.

Lemma mark_active_tokens (c : t) :
  TokenManager.token <$> TokenManager.tokens (mark_active c)
  = TokenManager.token <$> TokenManager.tokens (token_manager c).
Proof.
  unfold mark_active. destruct (api_key c) as [k|]; [|done].
  apply TokenManagerSpec.mark_keeps.
Qed.

(** Once the active credential is the token of a usable entry of a pool
    without repeated tokens, the loop posts at most one request per usable
    entry. *)
Lemma make_request_bounded (fuel : nat) :
  ∀ n c hs d i info,
    NoDup (TokenManager.token <$> TokenManager.tokens (token_manager c)) →
    TokenManager.tokens (token_manager c) !! i = Some info →
    api_key c = Some (TokenManager.token info) →
    TokenManager.is_exhausted info = false →
    TokenManager.usable (token_manager c) ≤ fuel →
    is_Some (ended (make_request json_loads server fuel n c hs d))
    ∧ length (sent (make_request json_loads server fuel n c hs d))
      ≤ TokenManager.usable (token_manager c).
Proof.
  induction fuel as [|fuel IH]; intros n c hs d i info Hnodup Hlook Hkey Hus Hfuel.
  { pose proof (TokenManagerSpec.usable_pos _ _ _ Hlook Hus). lia. }
  pose proof (TokenManagerSpec.usable_pos _ _ _ Hlook Hus) as Hpos.
  destruct (make_request_turn fuel n c hs d)
    as [(c' & e & ->)|(tok & Hret & ->)].
  { cbn [ended sent length]. split; [done|lia]. }
  pose proof (TokenManagerSpec.mark_usable _ _ _ Hnodup Hlook Hus) as Hmark.
  assert (Hactive : mark_active c
            = TokenManager.mark_token_exhausted (TokenManager.token info)
                (token_manager c)) by (unfold mark_active; by rewrite Hkey).
  rewrite <- Hactive in Hmark.
  destruct (TokenManagerSpec.next_token_success _ _ Hret)
    as (i' & info' & Hlook' & Htok' & Hus' & Hafter).
  set (c2 := set_api_key _ _).
  assert (Htm2 : token_manager c2 = TokenManager.Mk (TokenManager.tokens (mark_active c)) i')
    by (by rewrite <- Hafter).
  assert (Husable2 : TokenManager.usable (token_manager c2)
                     = TokenManager.usable (mark_active c))
    by (by rewrite Htm2).
  destruct (IH (S n) c2 (update_headers c hs tok) d i' info') as [Hended Hsent].
  - rewrite Htm2. cbn [TokenManager.tokens]. by rewrite mark_active_tokens.
  - by rewrite Htm2.
  - subst c2. cbn [api_key set_api_key]. by rewrite Htok'.
  - done.
  - lia.
  - cbn [posted ended sent length]. split; [done|lia].
Qed.

(** C10, amended. On a pool of [N] entries whose tokens are pairwise
    distinct, whatever the server answers, the loop of [_make_request] ends
    within [N + 1] turns, having posted at most [N + 1] requests. *)
Theorem retry_loop_terminates (fuel n : nat) (c : t)
    (hs : gmap string (option string)) (d : body) :
  NoDup (TokenManager.token <$> TokenManager.tokens (token_manager c)) →
  length (TokenManager.tokens (token_manager c)) + 1 ≤ fuel →
  is_Some (ended (make_request json_loads server fuel n c hs d))
  ∧ length (sent (make_request json_loads server fuel n c hs d))
    ≤ length (TokenManager.tokens (token_manager c)) + 1.
Proof.
  intros Hnodup Hfuel. destruct fuel as [|fuel]; [lia|].
  destruct (make_request_turn fuel n c hs d)
    as [(c' & e & ->)|(tok & Hret & ->)].
  { cbn [ended sent length]. split; [done|lia]. }
  destruct (TokenManagerSpec.next_token_success _ _ Hret)
    as (i' & info' & Hlook' & Htok' & Hus' & Hafter).
  set (c2 := set_api_key _ _).
  assert (Htm2 : token_manager c2 = TokenManager.Mk (TokenManager.tokens (mark_active c)) i')
    by (by rewrite <- Hafter).
  assert (Hlen : length (TokenManager.tokens (mark_active c))
                 = length (TokenManager.tokens (token_manager c))).
  { rewrite <- (length_fmap TokenManager.token), mark_active_tokens.
    apply length_fmap. }
  pose proof (TokenManagerSpec.usable_le_length (token_manager c2)) as Hle.
  rewrite Htm2 in Hle. cbn [TokenManager.tokens] in Hle.
  destruct (make_request_bounded fuel (S n) c2 (update_headers c hs tok) d i' info')
    as [Hended Hsent].
  - rewrite Htm2. cbn [TokenManager.tokens]. by rewrite mark_active_tokens.
  - by rewrite Htm2.
  - subst c2. cbn [api_key set_api_key]. by rewrite Htok'.
  - done.
  - rewrite Htm2. lia.
  - cbn [posted ended sent length]. split; [done|].
    rewrite Htm2 in Hsent. lia.
Qed.

End Termination.


Lemma quota_body_carries_code :
  carries_quota_code JsonText.loads Scenario.quota_body.
Proof.
  exists (JDict [("error", JDict [("code", JStr "insufficient_user_quota")])]),
         (JStr "insufficient_user_quota").
  by vm_compute.
Qed.

(** C4, on the scenario of the specification: the pool holds [t1] and [t2],
    the request with [t1] is answered with the quota code, and the second
    request, the only other one, carries [t2]. *)
Lemma quota_error_rotates_credential_witness :
  ∃ rest,
    sent (make_request JsonText.loads Scenario.quota_then_hi 2 0 Scenario.client
            (headers (Scenario.request_of Scenario.client))
            (data (Scenario.request_of Scenario.client)))
    = Request (headers (Scenario.request_of Scenario.client))
              (data (Scenario.request_of Scenario.client))
      :: Request (update_headers Scenario.client
                    (headers (Scenario.request_of Scenario.client)) "t2")
                 (data (Scenario.request_of Scenario.client))
      :: rest.
Proof.
  refine (proj1 (proj2 (proj1 (quota_error_rotates_credential
            JsonText.loads Scenario.quota_then_hi 1 0 Scenario.client
            (headers (Scenario.request_of Scenario.client))
            (data (Scenario.request_of Scenario.client))
            Scenario.quota_body _ _) "t2" _ _)) _).
  - by vm_compute.
  - exists (JDict [("error", JDict [("code", JStr "insufficient_user_quota")])]),
           (JStr "insufficient_user_quota").
    by vm_compute.
  - by vm_compute.
  - discriminate.
  - lia.
Defined.

(** The end-to-end scenario of the specification: one quota failure with
    [t1], then two lines streamed to [t2]. *)
Lemma scenario_rotation :
  events (stream_chat JsonText.loads Scenario.quota_then_hi 2 Scenario.client
            [] "claude-3-5-sonnet-20241022")
  = [("answer", JStr "Hi")]
  ∧ outcome (stream_chat JsonText.loads Scenario.quota_then_hi 2 Scenario.client
               [] "claude-3-5-sonnet-20241022")
    = Some (Return tt)
  ∧ (sent <$> requests (stream_chat JsonText.loads Scenario.quota_then_hi 2
                          Scenario.client [] "claude-3-5-sonnet-20241022"))
    = Some [Scenario.request_of Scenario.client;
            Request (update_headers Scenario.client
                       (headers (Scenario.request_of Scenario.client)) "t2")
                    (data (Scenario.request_of Scenario.client))].
Proof. by vm_compute. Qed.

(** When the quota is used up for every credential, the caller sees no
    event and a normal end, after one request per credential. *)
Lemma scenario_exhaustion :
  events (stream_chat JsonText.loads Scenario.no_quota 3 Scenario.client
            [] "claude-3-5-sonnet-20241022")
  = []
  ∧ outcome (stream_chat JsonText.loads Scenario.no_quota 3 Scenario.client
               [] "claude-3-5-sonnet-20241022")
    = Some (Return tt)
  ∧ (length ∘ sent <$> requests (stream_chat JsonText.loads Scenario.no_quota 3
                                   Scenario.client [] "claude-3-5-sonnet-20241022"))
    = Some 2.
Proof. by vm_compute. Qed.

(** The OpenAI-style scenario of the specification. *)
Lemma scenario_openrouter :
  events (stream_chat JsonText.loads Scenario.streams_ok 1
            Scenario.openrouter_client [] "claude-3-5-sonnet-20241022")
  = [("answer", JStr "ok")].
Proof. by vm_compute. Qed.

(** C10, amended, on the pool of the scenario and a server without quota
    for any credential. *)
Lemma retry_loop_terminates_witness :
  is_Some (ended (make_request JsonText.loads Scenario.no_quota 3 0
                    Scenario.client
                    (headers (Scenario.request_of Scenario.client))
                    (data (Scenario.request_of Scenario.client))))
  ∧ length (sent (make_request JsonText.loads Scenario.no_quota 3 0
                    Scenario.client
                    (headers (Scenario.request_of Scenario.client))
                    (data (Scenario.request_of Scenario.client))))
    ≤ length (TokenManager.tokens (token_manager Scenario.client)) + 1.
Proof.
  apply (retry_loop_terminates JsonText.loads Scenario.no_quota 3 0
           Scenario.client).
  - apply (bool_decide_unpack _). by vm_compute.
  - simpl. lia.
Defined.

(** Setting the header to the credential it already holds changes nothing. *)
Lemma twice_same_headers (c : t) :
  provider c = "anthropic" →
  update_headers c (headers (Scenario.request_of Scenario.client_twice)) "a"
  = headers (Scenario.request_of Scenario.client_twice).
Proof.
  intros Hp. unfold update_headers. rewrite decide_True by done.
  apply insert_id. by vm_compute.
Qed.

(** With the same token twice in the pool, a client that was rotated to it
    is back in the same state after each quota failure. *)
Lemma twice_rotated_never_ends (fuel n : nat) :
  ended (make_request JsonText.loads Scenario.no_quota fuel n
           Scenario.client_twice_rotated
           (headers (Scenario.request_of Scenario.client_twice))
           (data (Scenario.request_of Scenario.client_twice)))
  = None.
Proof.
  revert n. induction fuel as [|fuel IH]; intros n; [done|].
  rewrite (make_request_quota _ _ _ _ _ _ _ Scenario.quota_body);
    [|done|apply quota_body_carries_code].
  cbv zeta.
  assert (TokenManager.returned
            (TokenManager.next_token (mark_active Scenario.client_twice_rotated))
          = Return (Some "a")) as -> by by vm_compute.
  change (negb (truthy_str (Some "a"))) with false. cbn [posted ended].
  assert (set_api_key (Some "a")
            (set_token_manager
               (TokenManager.after
                  (TokenManager.next_token
                     (mark_active Scenario.client_twice_rotated)))
               Scenario.client_twice_rotated)
          = Scenario.client_twice_rotated) as -> by by vm_compute.
  rewrite twice_same_headers by done.
  apply IH.
Qed.

(** C10 as stated fails: with a pool of two entries that hold the same
    token and a server without quota, the loop has posted six requests after
    six turns and has not ended, and it ends after no number of turns. *)
Lemma duplicate_token_retries_forever :
  length (sent (make_request JsonText.loads Scenario.no_quota 6 0
                  Scenario.client_twice
                  (headers (Scenario.request_of Scenario.client_twice))
                  (data (Scenario.request_of Scenario.client_twice))))
  = 6
  ∧ ended (make_request JsonText.loads Scenario.no_quota 6 0
             Scenario.client_twice
             (headers (Scenario.request_of Scenario.client_twice))
             (data (Scenario.request_of Scenario.client_twice)))
    = None
  ∧ ¬ ∃ fuel,
        is_Some (ended (make_request JsonText.loads Scenario.no_quota fuel 0
                          Scenario.client_twice
                          (headers (Scenario.request_of Scenario.client_twice))
                          (data (Scenario.request_of Scenario.client_twice)))).
Proof.
  split_and!; [by vm_compute..|].
  intros [fuel Hended]. destruct fuel as [|fuel].
  { by apply is_Some_None in Hended. }
  rewrite (make_request_quota _ _ _ _ _ _ _ Scenario.quota_body) in Hended;
    [|done|apply quota_body_carries_code].
  cbv zeta in Hended.
  assert (TokenManager.returned
            (TokenManager.next_token (mark_active Scenario.client_twice))
          = Return (Some "a")) as Hret by by vm_compute.
  rewrite Hret in Hended.
  change (negb (truthy_str (Some "a"))) with false in Hended.
  cbn [posted ended] in Hended.
  assert (set_api_key (Some "a")
            (set_token_manager
               (TokenManager.after
                  (TokenManager.next_token (mark_active Scenario.client_twice)))
               Scenario.client_twice)
          = Scenario.client_twice_rotated) as Hc by by vm_compute.
  rewrite Hc, twice_same_headers, twice_rotated_never_ends in Hended by done.
  by apply is_Some_None in Hended.
Qed.

(** ** Construction *)

(** [__init__] raises exactly when a key is supplied and the pool yields no
    token; otherwise the supplied key, or else the token of the pool, is the
    active credential. *)
Lemma init_raises_iff (key : option string)
    (file : option (list TokenManager.token_info)) (url provider : string) :
  ∃ initial_token,
    TokenManager.returned (TokenManager.next_token (TokenManager.init file))
    = Return initial_token
    ∧ (init key file url provider = Raise ValueError
       ↔ truthy_str key = true ∧ truthy_str initial_token = false)
    ∧ (∀ c, init key file url provider = Return c →
            api_key c = if truthy_str key then key else initial_token).
Proof.
  destruct (TokenManagerSpec.next_token_return (TokenManager.init file))
    as [initial_token Hret].
  { intros Hne. unfold TokenManager.init, TokenManager.load_tokens in *.
    cbn [TokenManager.tokens TokenManager.current_token_index] in *.
    destruct (default [] file); [done|simpl; lia]. }
  exists initial_token. split; [done|]. unfold init. rewrite Hret.
  cbn [mbind result_bind].
  destruct (truthy_str initial_token), (truthy_str key); cbn [negb andb];
    (split; [split; [by intros ?|by intros [? ?]]|by intros c [= <-]]).
Qed.

(** C1, on the code. With an explicit key and no token file (or a pool
    whose only token is exhausted), construction raises although a credential
    was supplied; with neither a key nor a pool token it raises nothing and
    leaves the client without a credential. *)
Theorem init_raises_with_explicit_key :
  init (Some "sk-explicit") None "https://api.anthropic.com/v1/messages"
       "anthropic"
  = Raise ValueError
  ∧ init (Some "sk-explicit") (Some [TokenManager.TokenInfo "t1" (Some true)])
         "https://api.anthropic.com/v1/messages" "anthropic"
    = Raise ValueError
  ∧ init None None "https://api.anthropic.com/v1/messages" "anthropic"
    = Return (Mk (TokenManager.Mk [] 0) None
                 "https://api.anthropic.com/v1/messages" "anthropic")
  ∧ init (Some "sk-explicit") (Some Scenario.pool)
         "https://api.anthropic.com/v1/messages" "anthropic"
    = Return (Mk (TokenManager.Mk Scenario.pool 0) (Some "sk-explicit")
                 "https://api.anthropic.com/v1/messages" "anthropic")
  ∧ init None (Some Scenario.pool)
         "https://api.anthropic.com/v1/messages" "anthropic"
    = Return Scenario.client.
Proof. by vm_compute. Qed.

End ClaudeClientSpec.

(** * Further properties of the token pool *)

Module PoolSpec.
Import TokenManager Pool TokenManagerSpec.

(** A scan that finds no usable entry ends where it started, after reading
    the whole list; it never raises from a position of the list. *)
Lemma scan_not_found (l : list token_info) (s : nat) :
  s < length l →
  ∀ fuel p r,
    p < length l →
    scan fuel s p (Mk l ((s + p) mod length l)) = Some r →
    (∃ tok, returned r = Return (Some tok))
    ∨ r = NextResult (Return None) (Mk l s) (length l).
Proof.
  intros Hs fuel. induction fuel as [|fuel IH]; intros p r Hp Hscan; [done|].
  cbn [scan] in Hscan. fields.
  destruct (lookup_lt_is_Some_2 l ((s + p) mod length l)) as [info Hinfo];
    [apply Nat.mod_upper_bound; lia|].
  rewrite Hinfo in Hscan. destruct (is_exhausted info); cbn [negb] in Hscan.
  - rewrite mod_succ_shift in Hscan. case_decide as Hback.
    + injection Hscan as <-. right. unfold set_index in *. fields.
      rewrite Hback. apply mod_back_to_start in Hback; [|done..].
      by rewrite Hback.
    + assert (S p ≠ length l) by (intros Heq; by apply Hback, mod_back_to_start).
      unfold set_index in Hscan. fields. apply (IH (S p)); [lia|done].
  - injection Hscan as <-. left. by eexists.
Qed.

(** A call that does not return a token leaves the manager as it was. *)
Lemma get_next_token_settled (tm : t) (fuel : nat) (r : next_result) :
  get_next_token fuel tm = Some r →
  (∃ tok, returned r = Return (Some tok)) ∨ after r = tm.
Proof.
  destruct tm as [l c]. unfold get_next_token. fields. intros Hnext.
  destruct l as [|x l']; [injection Hnext as <-; by right|].
  set (l := x :: l') in *.
  destruct (decide (c < length l)) as [Hc|Hc].
  - pose proof (scan_not_found l c Hc fuel 0 r) as Hscan.
    rewrite Nat.add_0_r, (Nat.mod_small c) in Hscan by done.
    destruct (Hscan ltac:(lia) Hnext) as [Hsome| ->]; [by left|by right].
  - destruct fuel as [|fuel]; [done|]. cbn [scan] in Hnext. fields.
    rewrite lookup_ge_None_2 in Hnext by lia. injection Hnext as <-. by right.
Qed.

(** X1. [get_next_token] is idempotent: a second call returns what the
    first one returned and leaves the cursor where the first one left it. *)
Theorem get_next_token_again (tm : t) (fuel : nat) (r : next_result) :
  get_next_token fuel tm = Some r →
  ∃ n, get_next_token fuel (after r)
       = Some (NextResult (returned r) (after r) n).
Proof.
  intros Hnext.
  destruct (get_next_token_settled tm fuel r Hnext) as [[tok Hret]|Hsame].
  - destruct (get_next_token_success tm fuel r tok Hnext Hret)
      as (Hc & k & info & Hk & -> & Hlook & Htok & Hus & _).
    exists 1. unfold entry_at in Hlook. unfold get_next_token. fields.
    destruct tm as [l c]. fields.
    destruct l as [|x l']; [simpl in Hk; lia|]. set (l := x :: l') in *.
    destruct fuel as [|fuel]; [done|]. cbn [scan]. fields.
    by rewrite Hlook, Hus, Htok.
  - rewrite Hsame, Hnext. exists (probes r). rewrite <- Hsame. by destruct r.
Qed.

(** X1, on a pool whose cursor is on an exhausted entry: the second call
    finds the cursor on the token that the first one returned. *)
Lemma get_next_token_again_witness :
  ∃ n, get_next_token 2
         (after (NextResult (Return (Some "t2"))
                   (Mk [TokenInfo "t1" (Some true); TokenInfo "t2" None] 1) 2))
       = Some (NextResult (Return (Some "t2"))
                 (Mk [TokenInfo "t1" (Some true); TokenInfo "t2" None] 1) n).
Proof.
  exact (get_next_token_again
           (Mk [TokenInfo "t1" (Some true); TokenInfo "t2" None] 0) 2
           (NextResult (Return (Some "t2"))
              (Mk [TokenInfo "t1" (Some true); TokenInfo "t2" None] 1) 2)
           eq_refl).
Defined.

(** X2. [mark_token_exhausted] is idempotent. *)
Theorem mark_token_exhausted_idempotent (tm : t) (tok : string) :
  mark_token_exhausted tok (mark_token_exhausted tok tm)
  = mark_token_exhausted tok tm.
Proof.
  destruct (mark_shape tm tok) as [Hsame|(i & info & Hlook & Htok & Hfirst & Hmark)].
  { by rewrite !Hsame. }
  rewrite Hmark. unfold mark_token_exhausted. fields.
  set (l' := <[i:=TokenInfo tok (Some true)]> (tokens tm)).
  destruct (mark_loop_spec tok ((i + 1) mod length (tokens tm)) [] l')
    as [Hfound _].
  simpl in Hfound. rewrite (Hfound i (TokenInfo tok (Some true))).
  - unfold set_exhausted, l'. fields.
    by rewrite list_insert_insert_eq, length_insert.
  - apply list_lookup_insert_eq. by eapply lookup_lt_Some.
  - done.
  - intros j e Hj He. unfold l' in He.
    rewrite list_lookup_insert_ne in He by lia. by eapply Hfirst.
Qed.

(** X3. [reset_exhausted_status] forgets the marks: the entries are the
    same whether a token was marked before or not, every entry is usable
    afterwards, and a second reset changes nothing. *)
Theorem reset_forgets_marks (tm : t) (tok : string) :
  tokens (reset_exhausted_status (mark_token_exhausted tok tm))
  = tokens (reset_exhausted_status tm)
  ∧ usable (reset_exhausted_status tm) = length (tokens tm)
  ∧ reset_exhausted_status (reset_exhausted_status tm)
    = reset_exhausted_status tm.
Proof.
  unfold reset_exhausted_status. fields. split_and!.
  - destruct (mark_shape tm tok) as [->|(i & info & Hlook & Htok & _ & ->)];
      [done|].
    fields. rewrite list_fmap_insert. apply list_insert_id.
    rewrite list_lookup_fmap, Hlook. unfold set_exhausted. simpl.
    by rewrite Htok.
  - unfold usable. fields. induction (tokens tm) as [|x l IH]; [done|].
    rewrite fmap_cons, filter_cons_True by done. simpl. by rewrite IH.
  - f_equal. rewrite <- list_fmap_compose. by apply list_fmap_ext.
Qed.

(** One use of the pool keeps the tokens in place and revives no entry. *)
Lemma use_keeps (tm tm' : t) :
  use tm tm' →
  token <$> tokens tm' = token <$> tokens tm
  ∧ (∀ i e, tokens tm !! i = Some e → is_exhausted e = true →
       ∃ e', tokens tm' !! i = Some e' ∧ is_exhausted e' = true)
  ∧ usable tm' ≤ usable tm.
Proof.
  intros [fuel tm0 r Hnext|tok tm0].
  - assert (Htok : tokens (after r) = tokens tm0).
    { unfold get_next_token in Hnext. destruct (tokens tm0) as [|x l] eqn:Hl.
      - injection Hnext as <-. done.
      - rewrite <- Hl in *. by destruct (scan_after _ _ _ _ _ Hnext). }
    unfold usable. rewrite Htok. split_and!; [done| |done].
    intros i e Hlook Hex. by exists e.
  - destruct (mark_keeps tm0 tok) as [Htoks Hus]. split_and!; [done| |done].
    intros i e Hlook Hex.
    destruct (mark_shape tm0 tok) as [->|(j & info & _ & _ & _ & ->)];
      [by exists e|].
    fields. destruct (decide (j = i)) as [->|Hne].
    + exists (TokenInfo tok (Some true)). split; [|done].
      apply list_lookup_insert_eq. by eapply lookup_lt_Some.
    + exists e. by rewrite list_lookup_insert_ne.
Qed.

(** X4. Between resets and reloads the pool only loses usable entries:
    whatever calls of [get_next_token] and [mark_token_exhausted] are made,
    the tokens stay in place and in order, an exhausted entry stays
    exhausted, and the number of usable entries does not grow. *)
Theorem use_never_revives (tm tm' : t) :
  rtc use tm tm' →
  token <$> tokens tm' = token <$> tokens tm
  ∧ (∀ i e, tokens tm !! i = Some e → is_exhausted e = true →
       ∃ e', tokens tm' !! i = Some e' ∧ is_exhausted e' = true)
  ∧ usable tm' ≤ usable tm.
Proof.
  induction 1 as [tm|tm tm1 tm' Hstep _ (IHtok & IHex & IHus)].
  - split_and!; [done| |done]. intros i e Hlook Hex. by exists e.
  - destruct (use_keeps tm tm1 Hstep) as (Htok & Hex & Hus).
    split_and!; [congruence| |lia].
    intros i e Hlook He. destruct (Hex i e Hlook He) as (e1 & Hlook1 & He1).
    by apply (IHex i e1).
Qed.

(** X4, after a mark and a call on the pool of two. *)
Lemma use_never_revives_witness :
  token <$> tokens (Mk [TokenInfo "t1" (Some true); TokenInfo "t2" None] 1)
  = token <$> tokens (Mk [TokenInfo "t1" None; TokenInfo "t2" None] 0)
  ∧ (∀ i e,
       tokens (Mk [TokenInfo "t1" None; TokenInfo "t2" None] 0) !! i = Some e →
       is_exhausted e = true →
       ∃ e', tokens (Mk [TokenInfo "t1" (Some true); TokenInfo "t2" None] 1) !! i
             = Some e' ∧ is_exhausted e' = true)
  ∧ usable (Mk [TokenInfo "t1" (Some true); TokenInfo "t2" None] 1)
    ≤ usable (Mk [TokenInfo "t1" None; TokenInfo "t2" None] 0).
Proof.
  apply use_never_revives.
  eapply rtc_l; [apply (use_mark "t1")|].
  eapply rtc_l;
    [apply (use_next 2
              (Mk [TokenInfo "t1" (Some true); TokenInfo "t2" None] 1)
              (NextResult (Return (Some "t2"))
                 (Mk [TokenInfo "t1" (Some true); TokenInfo "t2" None] 1) 1)
              eq_refl)|].
  apply rtc_refl.
Defined.

(** After a mark, in a pool whose tokens are pairwise distinct, the entry
    that holds the token is exhausted. *)
Lemma mark_flags_token (tm : t) (tok : string) (i : nat) (e : token_info) :
  NoDup (token <$> tokens tm) →
  tokens (mark_token_exhausted tok tm) !! i = Some e →
  token e = tok →
  is_exhausted e = true.
Proof.
  intros Hnodup Hlook He. destruct tm as [l c].
  unfold mark_token_exhausted in Hlook. fields.
  destruct (mark_loop_spec tok c [] l) as [Hfound Hnone].
  simpl in Hfound, Hnone.
  destruct (first_match_or_none l tok) as [(j & info & Hj & Hjt & Hfirst)|Hno].
  - rewrite (Hfound j info Hj Hjt Hfirst) in Hlook. fields.
    destruct (decide (j = i)) as [->|Hne].
    + rewrite list_lookup_insert_eq in Hlook by by eapply lookup_lt_Some.
      by injection Hlook as <-.
    + rewrite list_lookup_insert_ne in Hlook by done. exfalso. apply Hne.
      eapply (NoDup_lookup _ _ _ _ Hnodup); rewrite list_lookup_fmap;
        [by rewrite Hj; simpl; rewrite Hjt|by rewrite Hlook; simpl; rewrite He].
  - rewrite (Hnone Hno) in Hlook. fields. exfalso.
    apply (Hno e); [by eapply list_elem_of_lookup_2|done].
Qed.

(** X5. In a pool whose tokens are pairwise distinct, a token that was
    marked exhausted is not handed out again, whatever calls of
    [get_next_token] and [mark_token_exhausted] follow. *)
Theorem marked_token_not_returned
    (tm0 tm : t) (tok : string) (fuel : nat) (r : next_result) :
  NoDup (token <$> tokens tm0) →
  rtc use (mark_token_exhausted tok tm0) tm →
  get_next_token fuel tm = Some r →
  returned r ≠ Return (Some tok).
Proof.
  intros Hnodup Huses Hnext Hret.
  assert (Hinv : ∀ i e, tokens tm !! i = Some e → token e = tok →
                        is_exhausted e = true).
  { clear Hnext Hret. revert tm Huses.
    apply (rtc_ind_r (λ tm, ∀ i e, tokens tm !! i = Some e → token e = tok →
                                   is_exhausted e = true)).
    - intros i e. by apply mark_flags_token.
    - intros tm1 tm' _ Hstep IH i e' Hlook' He'.
      destruct (use_keeps tm1 tm' Hstep) as (Htok & Hex & _).
      assert (∃ e, tokens tm1 !! i = Some e ∧ token e = tok) as (e & Hlook & He).
      { apply (f_equal (λ l, l !! i)) in Htok.
        rewrite !list_lookup_fmap, Hlook' in Htok.
        destruct (tokens tm1 !! i) as [e|]; [|done].
        exists e. split; [done|]. simpl in Htok. congruence. }
      destruct (Hex i e Hlook (IH i e Hlook He)) as (e'' & Hlook'' & He'').
      congruence. }
  destruct (get_next_token_success tm fuel r tok Hnext Hret)
    as (_ & k & info & _ & _ & Hlook & Htok & Hus & _).
  unfold entry_at in Hlook. rewrite (Hinv _ _ Hlook Htok) in Hus. done.
Qed.

(** X5, on the pool of two after [t1] was marked. *)
Lemma marked_token_not_returned_witness :
  returned (NextResult (Return (Some "t2"))
              (Mk [TokenInfo "t1" (Some true); TokenInfo "t2" None] 1) 1)
  ≠ Return (Some "t1").
Proof.
  apply (marked_token_not_returned
           (Mk [TokenInfo "t1" None; TokenInfo "t2" None] 0)
           (Mk [TokenInfo "t1" (Some true); TokenInfo "t2" None] 1) "t1" 2).
  - apply (bool_decide_unpack _). by vm_compute.
  - apply rtc_refl.
  - reflexivity.
Defined.

End PoolSpec.

(** * Further properties of the client *)

Module AdapterSpec.
Import Text Json ClaudeClient Wire.

(** ** Construction *)

(** X6. The constructor as a function of the key and of the token file.
    Without a key it never raises: the active credential is the token of the
    first entry of the file that is not exhausted, or [None] when there is
    none. With a key it keeps the key, but raises [ValueError] unless the
    file holds such an entry with a non-empty token. The manager's cursor is
    left on that entry, and no entry is flagged. *)
Theorem init_from_file (key : option string)
    (file : option (list TokenManager.token_info)) (url provider : string) :
  init key file url provider
  = match list_find (λ e, TokenManager.is_exhausted e = false) (default [] file) with
    | Some (i, e) =>
        if truthy_str key then
          if truthy_str (Some (TokenManager.token e)) then
            Return (Mk (TokenManager.Mk (default [] file) i) key url provider)
          else Raise ValueError
        else
          Return (Mk (TokenManager.Mk (default [] file) i)
                     (Some (TokenManager.token e)) url provider)
    | None =>
        if truthy_str key then Raise ValueError
        else Return (Mk (TokenManager.Mk (default [] file) 0) None url provider)
    end.
Proof.
  unfold init. set (tm := TokenManager.init file).
  assert (Hok : TokenManager.cursor_ok tm).
  { intros Hne. subst tm. unfold TokenManager.init, TokenManager.load_tokens in *.
    cbn [TokenManager.tokens TokenManager.current_token_index] in *.
    destruct (default [] file); [done|simpl; lia]. }
  pose proof (TokenManagerSpec.next_token_returns tm _ (Nat.le_refl _)) as Hnext.
  assert (Htm : tm = TokenManager.Mk (default [] file) 0) by done.
  destruct (list_find _ (default [] file)) as [[i e]|] eqn:Hfind.
  - apply list_find_Some in Hfind as (Hlook & Hus & Hfirst).
    assert (Hi : i < length (default [] file)) by by eapply lookup_lt_Some.
    rewrite (TokenManagerSpec.get_next_token_found tm _ i e) in Hnext;
      [|done|done|by rewrite Htm| | |done].
    + injection Hnext as <-.
      cbn [TokenManager.returned TokenManager.after mbind result_bind].
      unfold TokenManager.set_index. rewrite Htm.
      cbn [TokenManager.tokens TokenManager.current_token_index].
      rewrite ?Nat.add_0_l, Nat.mod_small by done.
      unfold BaseClient_init.
      by destruct (truthy_str key), (truthy_str (Some (TokenManager.token e))).
    + intros j Hj. unfold TokenManager.entry_at. rewrite Htm.
      cbn [TokenManager.tokens TokenManager.current_token_index].
      rewrite ?Nat.add_0_l, Nat.mod_small by lia.
      destruct (lookup_lt_is_Some_2 (default [] file) j ltac:(lia)) as [y Hy].
      exists y. split; [done|].
      specialize (Hfirst j y Hy Hj). by destruct (TokenManager.is_exhausted y).
    + unfold TokenManager.entry_at. rewrite Htm.
      cbn [TokenManager.tokens TokenManager.current_token_index].
      by rewrite ?Nat.add_0_l, Nat.mod_small.
  - apply list_find_None in Hfind.
    assert (Hall : ∀ e, e ∈ TokenManager.tokens tm →
                        TokenManager.is_exhausted e = true).
    { intros e He. rewrite Htm in He. cbn [TokenManager.tokens] in He.
      rewrite Forall_forall in Hfind. specialize (Hfind e He).
      by destruct (TokenManager.is_exhausted e). }
    destruct (decide (TokenManager.tokens tm = [])) as [Hnil|Hne].
    + rewrite TokenManagerSpec.get_next_token_empty in Hnext by done.
      injection Hnext as <-.
      cbn [TokenManager.returned TokenManager.after mbind result_bind].
      unfold BaseClient_init. rewrite Htm. by destruct (truthy_str key).
    + rewrite TokenManagerSpec.get_next_token_all_exhausted in Hnext by done.
      injection Hnext as <-.
      cbn [TokenManager.returned TokenManager.after mbind result_bind].
      unfold BaseClient_init. rewrite Htm. by destruct (truthy_str key).
Qed.

(** ** The request loop *)

Section Requests.

Context (json_loads : string → result value).
Context (server : nat → request → response).

(** The ways through one turn of the loop of [_make_request]. *)
Lemma make_request_step (fuel n : nat) (c : t)
    (hs : gmap string (option string)) (d : body) :
  (∃ e,
     make_request json_loads server (S fuel) n c hs d
     = Run [Request hs d] c (Some e)
     ∧ e ≠ Ended NoMoreTokens
     ∧ ∀ text, server n (Request hs d) = HttpError text →
               ¬ carries_quota_code json_loads text)
  ∨ (∃ text,
       server n (Request hs d) = HttpError text
       ∧ carries_quota_code json_loads text
       ∧ (((∃ e, TokenManager.returned (TokenManager.next_token (mark_active c))
                 = Raise e)
           ∧ make_request json_loads server (S fuel) n c hs d
             = Run [Request hs d]
                 (set_token_manager
                    (TokenManager.after (TokenManager.next_token (mark_active c))) c)
                 (Some (Ended RequestRaised)))
          ∨ ((TokenManager.returned (TokenManager.next_token (mark_active c))
              = Return None
              ∨ TokenManager.returned (TokenManager.next_token (mark_active c))
                = Return (Some EmptyString))
             ∧ make_request json_loads server (S fuel) n c hs d
               = Run [Request hs d]
                   (set_token_manager
                      (TokenManager.after (TokenManager.next_token (mark_active c))) c)
                   (Some (Ended NoMoreTokens)))
          ∨ (∃ tok,
               TokenManager.returned (TokenManager.next_token (mark_active c))
               = Return (Some tok)
               ∧ tok ≠ EmptyString
               ∧ make_request json_loads server (S fuel) n c hs d
                 = posted (Request hs d)
                     (make_request json_loads server fuel (S n)
                        (set_api_key (Some tok)
                           (set_token_manager
                              (TokenManager.after
                                 (TokenManager.next_token (mark_active c))) c))
                        (update_headers c hs tok) d)))).
Proof.
  destruct (server n (Request hs d)) as [chunks|text|] eqn:Hserver.
  - left. exists (Streamed chunks). cbn [make_request]. rewrite Hserver.
    split_and!; [done..|]. by intros text [=].
  - destruct (json_loads text) as [error_data|e] eqn:Hjson; last first.
    { left.
      exists (Ended match e with
                    | JSONDecodeError => RequestFailed
                    | _ => RequestRaised
                    end).
      cbn [make_request]. rewrite Hserver, Hjson. split_and!.
      - by destruct e.
      - by destruct e.
      - intros text' [= <-] (data & code & Hdata & _). congruence. }
    destruct (get "error" (JDict []) error_data ≫= get "code" JNull)
      as [error_code|e] eqn:Hcode; last first.
    { left. exists (Ended RequestRaised). cbn [make_request].
      rewrite Hserver, Hjson, Hcode. split_and!; [done..|].
      intros text' [= <-] (data & code & Hdata & Hget & _). congruence. }
    destruct (eq_str error_code "insufficient_user_quota") eqn:Hquota; last first.
    { left. exists (Ended RequestFailed). cbn [make_request].
      rewrite Hserver, Hjson, Hcode, Hquota. split_and!; [done..|].
      intros text' [= <-] (data & code & Hdata & Hget & Heq). congruence. }
    right. exists text.
    assert (Hcarries : carries_quota_code json_loads text)
      by by exists error_data, error_code.
    split_and!; [done..|].
    rewrite (ClaudeClientSpec.make_request_quota json_loads server fuel n c hs d
               text Hserver Hcarries).
    cbv zeta.
    destruct (TokenManager.returned _) as [[tok|]|e] eqn:Hret.
    + destruct (decide (tok = EmptyString)) as [->|Hne].
      * right; left. split; [by right|done].
      * right; right. exists tok. split_and!; [done..|].
        unfold truthy_str. by rewrite bool_decide_eq_false_2.
    + right; left. split; [by left|done].
    + left. split; [by exists e|done].
  - left. exists (Ended RequestRaised). cbn [make_request]. rewrite Hserver.
    split_and!; [done..|]. by intros text [=].
Qed.

(** X7. A request is retried only after a response that carries the quota
    code: in every run each request but the last was answered so, and any
    other response (a success, another error, a failure of the transport)
    ends the run after that request with the client as it was. *)
Theorem retry_only_after_quota (fuel n : nat) (c : t)
    (hs : gmap string (option string)) (d : body) :
  (∀ i req,
     sent (make_request json_loads server fuel n c hs d) !! i = Some req →
     S i < length (sent (make_request json_loads server fuel n c hs d)) →
     ∃ text, server (n + i) req = HttpError text
             ∧ carries_quota_code json_loads text)
  ∧ ((∀ text, server n (Request hs d) = HttpError text →
              ¬ carries_quota_code json_loads text) →
     0 < fuel →
     ∃ e, make_request json_loads server fuel n c hs d
          = Run [Request hs d] c (Some e)
          ∧ e ≠ Ended NoMoreTokens).
Proof.
  split.
  - revert n c hs. induction fuel as [|fuel IH]; intros n c hs i req Hlook Hlast;
      [done|].
    destruct (make_request_step fuel n c hs d)
      as [(e & Heq & _)|(text & Hserver & Hcarries &
            [[_ Heq]|[[_ Heq]|(tok & _ & _ & Heq)]])];
      rewrite Heq in Hlook, Hlast; cbn [sent posted length] in Hlook, Hlast;
      try lia.
    destruct i as [|i].
    + injection Hlook as <-. rewrite Nat.add_0_r. by exists text.
    + rewrite Nat.add_succ_r. apply (IH (S n) _ _ i req Hlook). lia.
  - intros Hother Hfuel. destruct fuel as [|fuel]; [lia|].
    destruct (make_request_step fuel n c hs d)
      as [(e & Heq & He & _)|(text & Hserver & Hcarries & _)].
    + by exists e.
    + by destruct (Hother text Hserver).
Qed.

End Requests.

(** X7, on the scenario of the specification: the first of the two
    requests was answered with the quota code. *)
Lemma retry_only_after_quota_witness :
  ∃ text,
    Scenario.quota_then_hi (0 + 0) (Scenario.request_of Scenario.client)
    = HttpError text
    ∧ carries_quota_code JsonText.loads text.
Proof.
  refine (proj1 (retry_only_after_quota JsonText.loads Scenario.quota_then_hi
                   2 0 Scenario.client
                   (headers (Scenario.request_of Scenario.client))
                   (data (Scenario.request_of Scenario.client)))
            0 (Scenario.request_of Scenario.client) _ _).
  - by vm_compute.
  - vm_compute. lia.
Defined.

Section Runs.

Context (json_loads : string → result value).
Context (server : nat → request → response).

Lemma update_headers_other (c : t) (hs : gmap string (option string))
    (tok k : string) :
  k ≠ auth_name c → update_headers c hs tok !! k = hs !! k.
Proof.
  unfold auth_name, update_headers. intros Hk.
  case_decide; by rewrite lookup_insert_ne.
Qed.

(** A run keeps the provider and the address of the client, the body of the
    request, and every header but the one of the credential. *)
Lemma make_request_keeps (fuel : nat) :
  ∀ n c hs d,
    provider (client_after (make_request json_loads server fuel n c hs d))
    = provider c
    ∧ api_url (client_after (make_request json_loads server fuel n c hs d))
      = api_url c
    ∧ ∀ req, req ∈ sent (make_request json_loads server fuel n c hs d) →
             data req = d
             ∧ ∀ k, k ≠ auth_name c → headers req !! k = hs !! k.
Proof.
  induction fuel as [|fuel IH]; intros n c hs d.
  { split_and!; [done..|]. by intros req ?%elem_of_nil. }
  destruct (make_request_step json_loads server fuel n c hs d)
    as [(e & -> & _)|(text & _ & _ &
          [[_ ->]|[[_ ->]|(tok & _ & _ & ->)]])];
    cbn [sent posted client_after].
  1-3: split_and!; [done..|]; by intros req ->%list_elem_of_singleton.
  set (c2 := set_api_key _ _).
  destruct (IH (S n) c2 (update_headers c hs tok) d) as (Hp & Hu & Hsent).
  split_and!; [done..|].
  intros req [->|Hin]%elem_of_cons; [done|].
  destruct (Hsent req Hin) as [Hd Hk]. split; [done|].
  intros k Hne. rewrite Hk by done. by apply update_headers_other.
Qed.

(** What [stream_chat] hands to the request loop. *)
Lemma stream_chat_requests (fuel : nat) (c : t) (msgs : list value)
    (mdl : string) (r : run) :
  requests (stream_chat json_loads server fuel c msgs mdl) = Some r →
  ∃ req0, build_request c msgs mdl = Return req0
          ∧ r = make_request json_loads server fuel 0 c (headers req0) (data req0).
Proof.
  unfold stream_chat. destruct (build_request c msgs mdl) as [req0|e]; [|done].
  intros Hr. exists req0. split; [done|].
  destruct (ended _) as [[chunks|why]|]; [|by injection Hr..].
  destruct (decode_chunks _ _ _). by injection Hr.
Qed.

(** X8. Every request of a chat, the retries included, carries the same
    body: the caller's messages with streaming on, the caller's model
    (replaced by [anthropic/claude-3.5-sonnet] for [openrouter]) and
    [max_tokens] 8192 for [anthropic] only. The requests differ from the
    first one in the header of the credential at most, and the run changes
    neither the provider nor the address of the client. *)
Theorem chat_requests_uniform (fuel : nat) (c : t) (msgs : list value)
    (mdl : string) (r : run) :
  requests (stream_chat json_loads server fuel c msgs mdl) = Some r →
  ∃ req0,
    build_request c msgs mdl = Return req0
    ∧ data req0
      = Body (if decide (provider c = "openrouter")
              then "anthropic/claude-3.5-sonnet" else mdl)
             msgs
             (if decide (provider c = "anthropic") then Some 8192%Z else None)
             true
    ∧ provider (client_after r) = provider c
    ∧ api_url (client_after r) = api_url c
    ∧ ∀ req, req ∈ sent r →
             data req = data req0
             ∧ ∀ k, k ≠ auth_name c → headers req !! k = headers req0 !! k.
Proof.
  intros (req0 & Hreq & ->)%stream_chat_requests. exists req0.
  destruct (make_request_keeps fuel 0 c (headers req0) (data req0))
    as (Hp & Hu & Hsent).
  split_and!; [done| |done..].
  unfold build_request in Hreq.
  repeat case_decide; try done; injection Hreq as <-; cbn [data]; congruence.
Qed.

Lemma build_request_in_sync (c : t) (msgs : list value) (mdl : string)
    (req0 : request) :
  build_request c msgs mdl = Return req0 → in_sync c (headers req0).
Proof.
  unfold build_request, in_sync, auth_name, auth_value. intros Hreq.
  repeat case_decide; try done; try congruence; injection Hreq as <-;
    cbn [headers]; by rewrite lookup_insert_eq.
Qed.

(** A run that ended has posted its last request with the credential of
    the client as it leaves it. *)
Lemma make_request_in_sync (fuel : nat) :
  ∀ n c hs d req,
    in_sync c hs →
    is_Some (ended (make_request json_loads server fuel n c hs d)) →
    last (sent (make_request json_loads server fuel n c hs d)) = Some req →
    in_sync (client_after (make_request json_loads server fuel n c hs d))
            (headers req).
Proof.
  induction fuel as [|fuel IH]; intros n c hs d req Hsync Hended Hlast.
  { by apply is_Some_None in Hended. }
  destruct (make_request_step json_loads server fuel n c hs d)
    as [(e & Heq & _)|(text & _ & _ &
          [[_ Heq]|[[_ Heq]|(tok & _ & _ & Heq)]])];
    rewrite Heq in Hended, Hlast |- *; cbn [sent posted client_after ended] in *.
  1-3: by injection Hlast as <-.
  set (c2 := set_api_key _ _) in *.
  set (inner := make_request json_loads server fuel (S n) c2
                  (update_headers c hs tok) d) in *.
  assert (Hne : sent inner ≠ []).
  { subst inner. destruct fuel as [|fuel]; [by apply is_Some_None in Hended|].
    destruct (ClaudeClientSpec.make_request_sent json_loads server fuel (S n) c2
                (update_headers c hs tok) d) as [rest ->]. done. }
  rewrite last_cons in Hlast.
  destruct (last (sent inner)) as [req'|] eqn:Hinner;
    [|by apply last_None in Hinner].
  injection Hlast as ->. apply (IH (S n) c2 _ d req); [|done|done].
  unfold in_sync, auth_name, auth_value, update_headers. subst c2.
  cbn [provider api_key set_api_key set_token_manager format default].
  case_decide; by rewrite lookup_insert_eq.
Qed.

(** X9. The credential on the wire is the credential of the client: when
    the request loop of a chat has ended, its last request carried, in the
    header of the provider, the [api_key] that the client holds afterwards. *)
Theorem last_request_in_sync (fuel : nat) (c : t) (msgs : list value)
    (mdl : string) (r : run) (req : request) :
  requests (stream_chat json_loads server fuel c msgs mdl) = Some r →
  is_Some (ended r) →
  last (sent r) = Some req →
  headers req !! auth_name (client_after r) = Some (auth_value (client_after r)).
Proof.
  intros (req0 & Hreq & ->)%stream_chat_requests Hended Hlast.
  apply (make_request_in_sync fuel 0 c (headers req0) (data req0) req);
    [|done..].
  by eapply build_request_in_sync.
Qed.

Lemma mark_active_ok (c : t) :
  TokenManager.cursor_ok (token_manager c) →
  TokenManager.cursor_ok (mark_active c).
Proof.
  unfold mark_active. destruct (api_key c) as [k|]; [|done].
  unfold TokenManager.mark_token_exhausted. intros Hok.
  destruct (TokenManagerSpec.mark_loop_shape k 0
              (TokenManager.tokens (token_manager c)) (token_manager c))
    as [->|[Hlen Hcur]]; [done|].
  intros Hne. rewrite Hlen. apply Hcur. intros Hnil.
  apply Hne. rewrite Hnil. cbn [TokenManager.mark_loop]. done.
Qed.

Lemma next_token_ok (tm : TokenManager.t) :
  TokenManager.cursor_ok tm →
  TokenManager.cursor_ok (TokenManager.after (TokenManager.next_token tm)).
Proof.
  intros Hok.
  pose proof (TokenManagerSpec.next_token_returns tm _ (Nat.le_refl _)) as Hnext.
  destruct (PoolSpec.get_next_token_settled tm _ _ Hnext) as [[tok Hret]| ->];
    [|done].
  destruct (TokenManagerSpec.next_token_success tm tok Hret)
    as (i & info & Hlook & _ & _ & ->).
  intros _. cbn [TokenManager.tokens TokenManager.current_token_index].
  by eapply lookup_lt_Some.
Qed.

Lemma tokens_nonempty_keep (tm tm' : TokenManager.t) :
  TokenManager.token <$> TokenManager.tokens tm'
  = TokenManager.token <$> TokenManager.tokens tm →
  Pool.tokens_nonempty tm → Pool.tokens_nonempty tm'.
Proof.
  intros Htok Hne e' He'.
  assert (Hin : TokenManager.token e'
                ∈ TokenManager.token <$> TokenManager.tokens tm)
    by (rewrite <- Htok; by apply list_elem_of_fmap_2).
  apply list_elem_of_fmap in Hin as (e & -> & He). by apply Hne.
Qed.

(** X10. The loop gives up for want of a token only when the pool is used
    up: on a pool of non-empty tokens whose cursor is a position, a run that
    ends because [get_next_token] had nothing to offer leaves every entry of
    the pool exhausted. *)
Theorem gives_up_when_exhausted (fuel n : nat) (c : t)
    (hs : gmap string (option string)) (d : body) :
  TokenManager.cursor_ok (token_manager c) →
  Pool.tokens_nonempty (token_manager c) →
  ended (make_request json_loads server fuel n c hs d)
  = Some (Ended NoMoreTokens) →
  ∀ e,
    e ∈ TokenManager.tokens
          (token_manager
             (client_after (make_request json_loads server fuel n c hs d))) →
    TokenManager.is_exhausted e = true.
Proof.
  revert n c hs. induction fuel as [|fuel IH]; intros n c hs Hok Hne Hended;
    [done|].
  assert (Hok1 : TokenManager.cursor_ok (mark_active c)) by by apply mark_active_ok.
  assert (Hne1 : Pool.tokens_nonempty (mark_active c)).
  { eapply tokens_nonempty_keep; [|done].
    apply ClaudeClientSpec.mark_active_tokens. }
  destruct (make_request_step json_loads server fuel n c hs d)
    as [(e & Heq & He & _)|(text & _ & _ &
          [[_ Heq]|[[Hret Heq]|(tok & _ & _ & Heq)]])];
    rewrite Heq in Hended |- *; cbn [posted client_after ended] in *.
  - congruence.
  - done.
  - cbn [token_manager set_token_manager].
    rewrite TokenManagerSpec.next_token_tokens.
    destruct Hret as [Hret|Hret].
    + destruct (TokenManagerSpec.first_usable_or_exhausted _ Hok1)
        as [(k & info & Hk & Hrun & Hlook & Hus)|Hall]; [|done].
      pose proof (TokenManagerSpec.next_token_returns (mark_active c) _
                    (Nat.le_refl _)) as Hnext.
      rewrite (TokenManagerSpec.get_next_token_found _ _ k info) in Hnext by done.
      injection Hnext as Hnext. by rewrite <- Hnext in Hret.
    + destruct (TokenManagerSpec.next_token_success _ _ Hret)
        as (i & info & Hlook & Htok & _).
      destruct (Hne1 info); [by eapply list_elem_of_lookup_2|done].
  - apply IH; [..|done]; cbn [token_manager set_api_key set_token_manager].
    + by apply next_token_ok.
    + eapply tokens_nonempty_keep; [|exact Hne1].
      by rewrite TokenManagerSpec.next_token_tokens.
Qed.

End Runs.

(** X8, on the scenario of the specification. *)
Lemma chat_requests_uniform_witness :
  ∃ req0,
    build_request Scenario.client [] "claude-3-5-sonnet-20241022" = Return req0
    ∧ data req0
      = Body (if decide (provider Scenario.client = "openrouter")
              then "anthropic/claude-3.5-sonnet"
              else "claude-3-5-sonnet-20241022")
             []
             (if decide (provider Scenario.client = "anthropic")
              then Some 8192%Z else None)
             true
    ∧ provider (client_after
                  (make_request JsonText.loads Scenario.quota_then_hi 2 0
                     Scenario.client
                     (headers (Scenario.request_of Scenario.client))
                     (data (Scenario.request_of Scenario.client))))
      = provider Scenario.client
    ∧ api_url (client_after
                 (make_request JsonText.loads Scenario.quota_then_hi 2 0
                    Scenario.client
                    (headers (Scenario.request_of Scenario.client))
                    (data (Scenario.request_of Scenario.client))))
      = api_url Scenario.client
    ∧ ∀ req,
        req ∈ sent (make_request JsonText.loads Scenario.quota_then_hi 2 0
                      Scenario.client
                      (headers (Scenario.request_of Scenario.client))
                      (data (Scenario.request_of Scenario.client))) →
        data req = data req0
        ∧ ∀ k, k ≠ auth_name Scenario.client →
               headers req !! k = headers req0 !! k.
Proof.
  apply (chat_requests_uniform JsonText.loads Scenario.quota_then_hi 2
           Scenario.client [] "claude-3-5-sonnet-20241022").
  vm_compute. reflexivity.
Defined.

(** X9, on the scenario of the specification: the last request carried
    [t2], which the client holds afterwards. *)
Lemma last_request_in_sync_witness :
  headers (Request (update_headers Scenario.client
                      (headers (Scenario.request_of Scenario.client)) "t2")
                   (data (Scenario.request_of Scenario.client)))
    !! auth_name
         (client_after
            (make_request JsonText.loads Scenario.quota_then_hi 2 0
               Scenario.client
               (headers (Scenario.request_of Scenario.client))
               (data (Scenario.request_of Scenario.client))))
  = Some (auth_value
            (client_after
               (make_request JsonText.loads Scenario.quota_then_hi 2 0
                  Scenario.client
                  (headers (Scenario.request_of Scenario.client))
                  (data (Scenario.request_of Scenario.client))))).
Proof.
  apply (last_request_in_sync JsonText.loads Scenario.quota_then_hi 2
           Scenario.client [] "claude-3-5-sonnet-20241022").
  - vm_compute. reflexivity.
  - vm_compute. by eexists.
  - vm_compute. reflexivity.
Defined.

(** X10, on the pool of the scenario and a server without quota for any
    credential. *)
Lemma gives_up_when_exhausted_witness :
  Forall (λ e, TokenManager.is_exhausted e = true)
    (TokenManager.tokens
       (token_manager
          (client_after
             (make_request JsonText.loads Scenario.no_quota 3 0
                Scenario.client
                (headers (Scenario.request_of Scenario.client))
                (data (Scenario.request_of Scenario.client)))))).
Proof.
  apply Forall_forall.
  apply (gives_up_when_exhausted JsonText.loads Scenario.no_quota 3 0
           Scenario.client).
  - intros _. simpl. lia.
  - intros e He. cbn in He.
    repeat (apply elem_of_cons in He as [->|He]; [discriminate|]).
    by apply elem_of_nil in He.
  - vm_compute. reflexivity.
Defined.

(** ** The decoder *)

Section Decoder.

Context (json_loads : string → result value).
Context (server : nat → request → response).

Lemma yield_if_truthy_events (content : value) (ev : event) :
  ev ∈ yield_if_truthy content → ev.1 = "answer" ∧ truthy ev.2 = true.
Proof.
  unfold yield_if_truthy. destruct (truthy content) eqn:Htruthy.
  - by intros ->%list_elem_of_singleton.
  - by intros ?%elem_of_nil.
Qed.

Lemma except_JSONDecodeError_events (r : list event * flow) :
  (except_JSONDecodeError r).1 = r.1.
Proof. by destruct r as [evs [| |[]]]. Qed.

Lemma decode_line_events (c : t) (line : string) (ev : event) :
  ev ∈ (decode_line json_loads c line).1 →
  ev.1 = "answer" ∧ truthy ev.2 = true.
Proof.
  unfold decode_line.
  destruct (startswith "data: " line); [|by intros ?%elem_of_nil].
  case_decide; [by intros ?%elem_of_nil|].
  rewrite except_JSONDecodeError_events.
  repeat first
    [ progress cbn [fst]
    | case_decide
    | match goal with
      | |- context [if ?b then _ else _] => destruct b
      | |- context [match ?x with _ => _ end] => destruct x
      end ];
    try (by intros ?%elem_of_nil); apply yield_if_truthy_events.
Qed.

Lemma decode_lines_events (c : t) (lines : list string) (ev : event) :
  ev ∈ (decode_lines json_loads c lines).1 →
  ev.1 = "answer" ∧ truthy ev.2 = true.
Proof.
  induction lines as [|line lines IH]; cbn [decode_lines fst].
  { by intros ?%elem_of_nil. }
  pose proof (decode_line_events c line ev) as Hline.
  destruct (decode_line json_loads c line) as [evs [| |e]]; cbn [fst] in *;
    [|done..].
  destruct (decode_lines json_loads c lines) as [evs' f]. cbn [fst] in *.
  intros [?|?]%elem_of_app; auto.
Qed.

Lemma decode_chunks_events (c : t) (chunks : list (list Byte.byte)) (ev : event) :
  ev ∈ (decode_chunks json_loads c chunks).1 →
  ev.1 = "answer" ∧ truthy ev.2 = true.
Proof.
  induction chunks as [|chunk chunks IH]; cbn [decode_chunks fst].
  { by intros ?%elem_of_nil. }
  assert (Hchunk : ev ∈ (decode_chunk json_loads c chunk).1 →
                   ev.1 = "answer" ∧ truthy ev.2 = true).
  { unfold decode_chunk. destruct (decode_utf8 chunk) as [chunk_str|];
      [|by intros ?%elem_of_nil].
    case_decide; [by intros ?%elem_of_nil|]. apply decode_lines_events. }
  destruct (decode_chunk json_loads c chunk) as [evs [| |e]]; cbn [fst] in *;
    [|done..].
  destruct (decode_chunks json_loads c chunks) as [evs' f]. cbn [fst] in *.
  intros [?|?]%elem_of_app; auto.
Qed.

(** X11. Every event that [stream_chat] yields has the kind ["answer"] and
    a content that is true as a condition: never [None], an empty string,
    zero, or an empty list or dict. *)
Theorem events_are_answers (fuel : nat) (c : t) (msgs : list value)
    (mdl : string) (ev : event) :
  ev ∈ events (stream_chat json_loads server fuel c msgs mdl) →
  ev.1 = "answer" ∧ truthy ev.2 = true.
Proof.
  unfold stream_chat.
  destruct (build_request c msgs mdl) as [req|e]; [|by intros ?%elem_of_nil].
  destruct (ended _) as [[chunks|why]|]; [|by intros ?%elem_of_nil..].
  pose proof (decode_chunks_events
                (client_after (make_request json_loads server fuel 0 c
                                 (headers req) (data req))) chunks ev) as Hev.
  by destruct (decode_chunks _ _ chunks) as [evs f].
Qed.

Lemma get_not_dict (key : string) (dflt v : value) :
  (∀ d, v ≠ JDict d) → get key dflt v = Raise AttributeError.
Proof. intros Hv. destruct v; try done. by destruct (Hv d). Qed.

(** X12. A data line whose payload is valid JSON of the wrong shape stops
    the stream with an exception, the events decoded before it being
    delivered: a payload that is not an object raises [AttributeError] for
    every provider, and for the OpenAI-style providers an object whose
    [choices] is the empty list raises [IndexError]. *)
Theorem ill_shaped_payload_raises (c : t) (line : string) (v : value)
    (l1 l2 : list string) (evs : list event) :
  supported (provider c) →
  startswith "data: " line = true →
  strip (drop_chars 6 line) ≠ "[DONE]" →
  json_loads (drop_chars 6 line) = Return v →
  decode_lines json_loads c l1 = (evs, Continue) →
  ((∀ d, v ≠ JDict d) →
   decode_lines json_loads c (l1 ++ line :: l2) = (evs, Raised AttributeError))
  ∧ (provider c ≠ "anthropic" →
     (∃ d, v = JDict d ∧ lookup_key "choices" d = Some (JList [])) →
     decode_lines json_loads c (l1 ++ line :: l2) = (evs, Raised IndexError)).
Proof.
  intros Hsup Hdata Hdone Hjson Hl1.
  assert (Hline : ∀ e,
            e ≠ JSONDecodeError →
            (if decide (provider c = "openrouter" ∨ provider c = "oneapi")
             then openai_content v = Raise e
             else anthropic_content v = Raise e) →
            decode_lines json_loads c (l1 ++ line :: l2) = (evs, Raised e)).
  { intros e Hcaught He. rewrite ClaudeClientSpec.decode_lines_app, Hl1.
    cbn [decode_lines]. unfold decode_line.
    rewrite Hdata, decide_False, Hjson by done.
    case_decide as Hopen.
    - rewrite He. destruct e; cbn [except_JSONDecodeError];
        try (by rewrite app_nil_r). by destruct Hcaught.
    - rewrite decide_True by (unfold supported in Hsup; tauto).
      rewrite He. destruct e; cbn [except_JSONDecodeError];
        try (by rewrite app_nil_r). by destruct Hcaught. }
  split.
  - intros Hv. apply Hline; [done|]. unfold openai_content, anthropic_content.
    case_decide.
    + by rewrite (get_not_dict "choices" _ v Hv).
    + by rewrite (get_not_dict "type" _ v Hv).
  - intros Hp (d & -> & Hchoices). apply Hline; [done|].
    rewrite decide_True by (unfold supported in Hsup; tauto).
    unfold openai_content, get. by rewrite Hchoices.
Qed.

(** X13. An object that lacks what the decoder looks for is passed over
    without an event and without an exception: for the OpenAI-style
    providers an object without [choices]; for [anthropic] an object whose
    [type] is not ['content_block_delta'], or that has this type and no
    [delta]. *)
Theorem object_without_content_skipped (c : t) (line : string)
    (d : list (string * value)) (l1 l2 : list string) :
  startswith "data: " line = true →
  strip (drop_chars 6 line) ≠ "[DONE]" →
  json_loads (drop_chars 6 line) = Return (JDict d) →
  (provider c = "openrouter" ∨ provider c = "oneapi" →
   lookup_key "choices" d = None →
   decode_lines json_loads c (l1 ++ line :: l2)
   = decode_lines json_loads c (l1 ++ l2))
  ∧ (provider c = "anthropic" →
     lookup_key "type" d ≠ Some (JStr "content_block_delta")
     ∨ lookup_key "delta" d = None →
     decode_lines json_loads c (l1 ++ line :: l2)
     = decode_lines json_loads c (l1 ++ l2)).
Proof.
  intros Hdata Hdone Hjson.
  assert (Hskip : decode_line json_loads c line = ([], Continue) →
                  decode_lines json_loads c (l1 ++ line :: l2)
                  = decode_lines json_loads c (l1 ++ l2)).
  { intros Hline. rewrite !ClaudeClientSpec.decode_lines_app.
    cbn [decode_lines]. rewrite Hline.
    by destruct (decode_lines json_loads c l2). }
  split.
  - intros Hp Hchoices. apply Hskip. unfold decode_line.
    rewrite Hdata, decide_False, Hjson, decide_True by done.
    unfold openai_content, get. by rewrite Hchoices.
  - intros Hp Hkeys. apply Hskip. unfold decode_line.
    rewrite Hdata, decide_False, Hjson by done.
    rewrite decide_False by (rewrite Hp; by intros [?|?]).
    rewrite decide_True by done.
    unfold anthropic_content, get. cbn [mbind result_bind].
    destruct (eq_str (default JNull (lookup_key "type" d))
                "content_block_delta") eqn:Htype; [|done].
    destruct Hkeys as [Hkeys| ->]; [|done].
    destruct (lookup_key "type" d) as [[]|]; try done.
    cbn in Htype. apply bool_decide_eq_true in Htype. by subst.
Qed.

(** X14. What is not a data line is ignored: a line that does not start
    with the data prefix, and a chunk that holds nothing but white space,
    change neither the events nor the end of the stream. *)
Theorem other_input_ignored (c : t) :
  (∀ line l1 l2,
     startswith "data: " line = false →
     decode_lines json_loads c (l1 ++ line :: l2)
     = decode_lines json_loads c (l1 ++ l2))
  ∧ (∀ chunk chunk_str cs1 cs2,
       decode_utf8 chunk = Some chunk_str →
       strip chunk_str = "" →
       decode_chunks json_loads c (cs1 ++ chunk :: cs2)
       = decode_chunks json_loads c (cs1 ++ cs2)).
Proof.
  split.
  - intros line l1 l2 Hdata. rewrite !ClaudeClientSpec.decode_lines_app.
    cbn [decode_lines]. unfold decode_line. rewrite Hdata.
    by destruct (decode_lines json_loads c l2).
  - intros chunk chunk_str cs1 cs2 Hutf Hblank.
    rewrite !ClaudeClientSpec.decode_chunks_app. cbn [decode_chunks].
    unfold decode_chunk. rewrite Hutf, decide_True by done.
    by destruct (decode_chunks json_loads c cs2).
Qed.

(** X15. A chunk that is not well-formed UTF-8 on its own, such as one that
    ends within a character, stops the stream with [UnicodeDecodeError];
    the events of the chunks before it are delivered. *)
Theorem undecodable_chunk_raises (c : t) (before after : list (list Byte.byte))
    (chunk : list Byte.byte) (evs : list event) :
  decode_utf8 chunk = None →
  decode_chunks json_loads c before = (evs, Continue) →
  decode_chunks json_loads c (before ++ chunk :: after)
  = (evs, Raised UnicodeDecodeError).
Proof.
  intros Hutf Hbefore. rewrite ClaudeClientSpec.decode_chunks_app, Hbefore.
  cbn [decode_chunks]. unfold decode_chunk. by rewrite Hutf, app_nil_r.
Qed.

End Decoder.

Section Exceptions.

Context (json_loads : string → result value).
Context (server : nat → request → response).

Lemma get_raises (key : string) (dflt v : value) (e : exn) :
  get key dflt v = Raise e → e = AttributeError.
Proof. destruct v; cbn; congruence. Qed.

Lemma item0_raises (v : value) (e : exn) :
  item0 v = Raise e → e ∈ [IndexError; KeyError; TypeError].
Proof.
  destruct v as [| | | |[|a r]|[|x l]|]; cbn; intros [= <-]; (rewrite ?elem_of_cons in *; naive_solver).
Qed.

Lemma openai_content_raises (v : value) (e : exn) :
  openai_content v = Raise e →
  e ∈ [AttributeError; IndexError; KeyError; TypeError].
Proof.
  unfold openai_content.
  destruct (get "choices" _ v) as [choices|e1] eqn:H1; cbn [mbind result_bind];
    [|intros [= <-]; apply get_raises in H1 as ->; (rewrite ?elem_of_cons in *; naive_solver)].
  destruct (item0 choices) as [first|e2] eqn:H2; cbn [mbind result_bind];
    [|intros [= <-]; apply item0_raises in H2; by right].
  destruct (get "delta" _ first) as [delta|e3] eqn:H3; cbn [mbind result_bind];
    [|intros [= <-]; apply get_raises in H3 as ->; (rewrite ?elem_of_cons in *; naive_solver)].
  intros ->%get_raises. (rewrite ?elem_of_cons in *; naive_solver).
Qed.

Lemma anthropic_content_raises (v : value) (e : exn) :
  anthropic_content v = Raise e → e = AttributeError.
Proof.
  unfold anthropic_content.
  destruct (get "type" _ v) as [type|e1] eqn:H1; cbn [mbind result_bind];
    [|intros [= <-]; by apply get_raises in H1].
  destruct (eq_str type _); [|done].
  destruct (get "delta" _ v) as [delta|e2] eqn:H2; cbn [mbind result_bind];
    [|intros [= <-]; by apply get_raises in H2].
  destruct (get "text" _ delta) as [content|e3] eqn:H3; cbn [mbind result_bind];
    [done|intros [= <-]; by apply get_raises in H3].
Qed.

Lemma decode_line_raises (c : t) (line : string) (e : exn) :
  supported (provider c) →
  (decode_line json_loads c line).2 = Raised e →
  e ≠ JSONDecodeError
  ∧ (e ∈ [AttributeError; IndexError; KeyError; TypeError]
     ∨ (startswith "data: " line = true
        ∧ json_loads (drop_chars 6 line) = Raise e)).
Proof.
  intros Hsup. unfold decode_line.
  destruct (startswith "data: " line); [|done].
  case_decide; [done|].
  destruct (json_loads _) as [v|e'] eqn:Hjson.
  - assert (Hshape : ∀ e', e' ∈ [AttributeError; IndexError; KeyError; TypeError] →
              ∀ evs, (except_JSONDecodeError (evs, Raised e')).2 = Raised e →
              e ≠ JSONDecodeError
              ∧ (e ∈ [AttributeError; IndexError; KeyError; TypeError]
                 ∨ (true = true ∧ Return v = Raise e))).
    { intros e' He' evs.
      repeat (apply elem_of_cons in He' as [->|He']; [intros [= <-]; split;
        [done|left; repeat first [by left|right]]|]).
      by apply elem_of_nil in He'. }
    case_decide as Hopen.
    + destruct (openai_content v) as [content|e'] eqn:Hc; [done|].
      apply Hshape. by apply openai_content_raises in Hc.
    + rewrite decide_True by (unfold supported in Hsup; tauto).
      destruct (anthropic_content v) as [[content|]|e'] eqn:Hc; [done..|].
      apply Hshape. apply anthropic_content_raises in Hc as ->. by left.
  - destruct e'; try done; intros [= <-]; (split; [done|by right]).
Qed.

Lemma decode_lines_raises (c : t) (lines : list string) (e : exn) :
  supported (provider c) →
  (decode_lines json_loads c lines).2 = Raised e →
  e ≠ JSONDecodeError
  ∧ (e ∈ [AttributeError; IndexError; KeyError; TypeError]
     ∨ ∃ line, line ∈ lines
               ∧ startswith "data: " line = true
               ∧ json_loads (drop_chars 6 line) = Raise e).
Proof.
  intros Hsup. induction lines as [|line lines IH]; cbn [decode_lines]; [done|].
  pose proof (decode_line_raises c line e Hsup) as Hline.
  destruct (decode_line json_loads c line) as [evs [| |e']]; cbn [snd] in *.
  - destruct (decode_lines json_loads c lines) as [evs' f]. cbn [snd] in *.
    intros Hf. destruct (IH Hf) as [Hcaught [Hshape|(l & Hl & Hdata & Hjson)]].
    + by split; [|left].
    + split; [done|]. right. exists l. split; [by right|done].
  - done.
  - intros Hf. destruct (Hline Hf) as [Hcaught [Hshape|[Hdata Hjson]]].
    + by split; [|left].
    + split; [done|]. right. exists line. split; [by left|done].
Qed.

Lemma decode_chunks_raises (c : t) (chunks : list (list Byte.byte)) (e : exn) :
  supported (provider c) →
  (decode_chunks json_loads c chunks).2 = Raised e →
  e ≠ JSONDecodeError
  ∧ (e ∈ [AttributeError; IndexError; KeyError; TypeError; UnicodeDecodeError]
     ∨ loads_raises json_loads chunks e).
Proof.
  intros Hsup. induction chunks as [|chunk chunks IH]; cbn [decode_chunks];
    [done|].
  assert (Hchunk : (decode_chunk json_loads c chunk).2 = Raised e →
            e ≠ JSONDecodeError
            ∧ (e ∈ [AttributeError; IndexError; KeyError; TypeError]
                   ++ [UnicodeDecodeError]
               ∨ loads_raises json_loads (chunk :: chunks) e)).
  { rewrite elem_of_app. unfold decode_chunk.
    destruct (decode_utf8 chunk) as [chunk_str|] eqn:Hutf;
      [|intros [= <-]; split; [done|left; right; by left]].
    case_decide; [done|]. intros He.
    destruct (decode_lines_raises _ _ _ Hsup He)
      as [Hcaught [Hshape|(line & Hline & Hdata & Hjson)]].
    - split; [done|]. by left; left.
    - split; [done|]. right. exists chunk, chunk_str, line.
      split_and!; [by left|done..]. }
  destruct (decode_chunk json_loads c chunk) as [evs [| |e']]; cbn [snd] in *;
    [|done..].
  destruct (decode_chunks json_loads c chunks) as [evs' f]. cbn [snd] in *.
  intros Hf. destruct (IH Hf) as [Hcaught [Hshape|(ch & s & line & Hch & Hrest)]].
  - by split; [|left].
  - split; [done|]. right. exists ch, s, line. split; [by right|done].
Qed.

(** X16. What [stream_chat] raises. For a provider other than the three it
    knows, it raises [ValueError] at once, without a request and without an
    event. For the three, an exception comes only out of the decoding of a
    response that was streamed: it is [AttributeError], [IndexError],
    [KeyError] or [TypeError] (a JSON value of the wrong shape),
    [UnicodeDecodeError] (a chunk), or whatever [json.loads] raised on the
    payload of a data line of the response, [JSONDecodeError] excepted,
    which is never raised. No failure of the request loop is raised. *)
Theorem chat_raises (fuel : nat) (c : t) (msgs : list value) (mdl : string) :
  (¬ supported (provider c) →
   stream_chat json_loads server fuel c msgs mdl
   = Chat [] (Some (Raise ValueError)) None)
  ∧ (supported (provider c) →
     ∀ e,
       outcome (stream_chat json_loads server fuel c msgs mdl) = Some (Raise e) →
       e ≠ JSONDecodeError
       ∧ ∃ r chunks,
           requests (stream_chat json_loads server fuel c msgs mdl) = Some r
           ∧ ended r = Some (Streamed chunks)
           ∧ (e ∈ [AttributeError; IndexError; KeyError; TypeError;
                   UnicodeDecodeError]
              ∨ loads_raises json_loads chunks e)).
Proof.
  split.
  - intros Hsup. unfold stream_chat, build_request, supported in *.
    repeat case_decide; tauto.
  - intros Hsup e. unfold stream_chat.
    destruct (build_request c msgs mdl) as [req|e'] eqn:Hreq.
    2: { exfalso. unfold build_request, supported in *.
         repeat case_decide; try done. tauto. }
    destruct (make_request_keeps json_loads server fuel 0 c (headers req)
                (data req)) as (Hp & _).
    destruct (ended _) as [[chunks|why]|] eqn:Hended; [|done..].
    pose proof (decode_chunks_raises
                  (client_after (make_request json_loads server fuel 0 c
                                   (headers req) (data req))) chunks e) as Hraise.
    rewrite Hp in Hraise.
    destruct (decode_chunks _ _ chunks) as [evs f]. cbn [outcome requests snd] in *.
    intros Hf.
    destruct Hraise as [Hcaught Hwhich];
      [done|destruct f; try done; cbn in Hf; congruence|].
    split; [done|]. by eexists _, _.
Qed.

(** X17. An exception that [json.loads] raises other than
    [JSONDecodeError], such as the [ValueError] for an integer literal beyond
    the digit limit, is not caught by the decoding loop: the data line stops
    the stream with that exception, after the events decoded before it.
    On the error body of a response it is caught by [_make_request], whose
    run ends there without a retry and with the client as it was. *)
Theorem loads_exception_propagates (c : t) (line : string) (e : exn)
    (l1 l2 : list string) (evs : list event) :
  startswith "data: " line = true →
  strip (drop_chars 6 line) ≠ "[DONE]" →
  json_loads (drop_chars 6 line) = Raise e →
  e ≠ JSONDecodeError →
  decode_lines json_loads c l1 = (evs, Continue) →
  decode_lines json_loads c (l1 ++ line :: l2) = (evs, Raised e)
  ∧ ∀ fuel n hs d,
      server n (Request hs d) = HttpError (drop_chars 6 line) →
      make_request json_loads server (S fuel) n c hs d
      = Run [Request hs d] c (Some (Ended RequestRaised)).
Proof.
  intros Hdata Hdone Hjson Hcaught Hl1. split.
  - rewrite ClaudeClientSpec.decode_lines_app, Hl1. cbn [decode_lines].
    unfold decode_line. rewrite Hdata, decide_False, Hjson by done.
    destruct e; cbn [except_JSONDecodeError]; try (by rewrite app_nil_r).
    by destruct Hcaught.
  - intros fuel n hs d Hserver. cbn [make_request]. rewrite Hserver, Hjson.
    by destruct e.
Qed.

End Exceptions.

(** X11, on the event of the scenario of the specification. *)
Lemma events_are_answers_witness :
  ("answer", JStr "Hi").1 = "answer" ∧ truthy ("answer", JStr "Hi").2 = true.
Proof.
  apply (events_are_answers JsonText.loads Scenario.quota_then_hi 2
           Scenario.client [] "claude-3-5-sonnet-20241022").
  vm_compute. by left.
Defined.

(** X12, on the payloads [5] and, for an OpenAI-style client, an object
    whose [choices] is empty. *)
Lemma ill_shaped_payload_raises_witness :
  decode_lines JsonText.loads Scenario.client
    ([Scenario.line_hi] ++ "data: 5" :: [Scenario.line_more])
  = ([("answer", JStr "Hi")], Raised AttributeError)
  ∧ decode_lines JsonText.loads Scenario.openrouter_client
      ([Scenario.line_ok]
       ++ ("data: " +:+ JsonText.q "{'choices':[]}") :: [Scenario.line_ok])
    = ([("answer", JStr "ok")], Raised IndexError).
Proof.
  split.
  - refine (proj1 (ill_shaped_payload_raises JsonText.loads Scenario.client
                     "data: 5" (JInt 5) [Scenario.line_hi] [Scenario.line_more]
                     [("answer", JStr "Hi")] _ _ _ _ _) _).
    + right; right. reflexivity.
    + by vm_compute.
    + by vm_compute.
    + by vm_compute.
    + by vm_compute.
    + done.
  - refine (proj2 (ill_shaped_payload_raises JsonText.loads
                     Scenario.openrouter_client
                     ("data: " +:+ JsonText.q "{'choices':[]}")
                     (JDict [("choices", JList [])])
                     [Scenario.line_ok] [Scenario.line_ok]
                     [("answer", JStr "ok")] _ _ _ _ _) _ _).
    + left. reflexivity.
    + by vm_compute.
    + by vm_compute.
    + by vm_compute.
    + by vm_compute.
    + discriminate.
    + by eexists.
Defined.

(** X13, on the empty object between two lines that decode. *)
Lemma object_without_content_skipped_witness :
  decode_lines JsonText.loads Scenario.client
    ([Scenario.line_hi] ++ "data: {}" :: [Scenario.line_more])
  = decode_lines JsonText.loads Scenario.client
      ([Scenario.line_hi] ++ [Scenario.line_more]).
Proof.
  refine (proj2 (object_without_content_skipped JsonText.loads Scenario.client
                   "data: {}" [] [Scenario.line_hi] [Scenario.line_more]
                   _ _ _) _ _).
  - by vm_compute.
  - by vm_compute.
  - by vm_compute.
  - reflexivity.
  - by left.
Defined.

(** X15, on a chunk that ends after the first byte of a character of two. *)
Lemma undecodable_chunk_raises_witness :
  decode_chunks JsonText.loads Scenario.client
    ([Scenario.bytes Scenario.line_hi]
     ++ (Scenario.bytes "data: " ++ [Byte.xc3]) :: [Scenario.bytes Scenario.line_more])
  = ([("answer", JStr "Hi")], Raised UnicodeDecodeError).
Proof.
  apply (undecodable_chunk_raises JsonText.loads Scenario.client).
  - by vm_compute.
  - by vm_compute.
Defined.

(** X14, on a comment line and on a chunk of line breaks. *)
Lemma other_input_ignored_witness :
  decode_lines JsonText.loads Scenario.client
    ([Scenario.line_hi] ++ ": keep-alive" :: [Scenario.line_more])
  = decode_lines JsonText.loads Scenario.client
      ([Scenario.line_hi] ++ [Scenario.line_more])
  ∧ decode_chunks JsonText.loads Scenario.client
      ([Scenario.bytes Scenario.line_hi]
       ++ Scenario.bytes (Scenario.nl +:+ Scenario.nl)
          :: [Scenario.bytes Scenario.line_more])
    = decode_chunks JsonText.loads Scenario.client
        ([Scenario.bytes Scenario.line_hi] ++ [Scenario.bytes Scenario.line_more]).
Proof.
  split.
  - apply (proj1 (other_input_ignored JsonText.loads Scenario.client)).
    by vm_compute.
  - apply (proj2 (other_input_ignored JsonText.loads Scenario.client)
             _ (Scenario.nl +:+ Scenario.nl)); by vm_compute.
Defined.

(** X16, on a client of a provider that [stream_chat] does not know. *)
Lemma chat_raises_witness :
  stream_chat JsonText.loads Scenario.no_quota 3
    (Mk (TokenManager.Mk Scenario.pool 0) (Some "t1")
        "https://example.invalid/v1" "azure")
    [] "claude-3-5-sonnet-20241022"
  = Chat [] (Some (Raise ValueError)) None.
Proof.
  apply (proj1 (chat_raises JsonText.loads Scenario.no_quota 3
                  (Mk (TokenManager.Mk Scenario.pool 0) (Some "t1")
                      "https://example.invalid/v1" "azure")
                  [] "claude-3-5-sonnet-20241022")).
  intros [H|[H|H]]; discriminate H.
Defined.

(** X17, on an integer literal of 4301 digits, after a line that decodes
    and as the body of an error response. *)
Lemma loads_exception_propagates_witness :
  decode_lines JsonText.loads Scenario.client
    ([Scenario.line_hi] ++ Scenario.line_digits 4301 :: [Scenario.line_more])
  = ([("answer", JStr "Hi")], Raised ValueError)
  ∧ ∀ fuel n hs d,
      make_request JsonText.loads
        (λ _ _, HttpError (drop_chars 6 (Scenario.line_digits 4301)))
        (S fuel) n Scenario.client hs d
      = Run [Request hs d] Scenario.client (Some (Ended RequestRaised)).
Proof.
  assert (Hdata : startswith "data: " (Scenario.line_digits 4301) = true)
    by by vm_compute.
  assert (Hdone : strip (drop_chars 6 (Scenario.line_digits 4301)) ≠ "[DONE]")
    by by vm_compute.
  assert (Hjson : JsonText.loads (drop_chars 6 (Scenario.line_digits 4301))
                  = Raise ValueError) by by vm_compute.
  assert (Hl1 : decode_lines JsonText.loads Scenario.client [Scenario.line_hi]
                = ([("answer", JStr "Hi")], Continue)) by by vm_compute.
  destruct (loads_exception_propagates JsonText.loads
              (λ _ _, HttpError (drop_chars 6 (Scenario.line_digits 4301)))
              Scenario.client (Scenario.line_digits 4301) ValueError
              [Scenario.line_hi] [Scenario.line_more] [("answer", JStr "Hi")]
              Hdata Hdone Hjson ltac:(done) Hl1) as [Hstream Hrun].
  split; [exact Hstream|].
  intros fuel n hs d. by apply Hrun.
Defined.

End AdapterSpec.
